(** * Module resolution and script assembly engine

    A shallow embedding of [src/registry/modules.ts] (the module registry)
    and [src/core/generateScript.ts] (dependency resolution, variable
    substitution and script assembly), followed by the properties of the
    engine stated in the specification.

    Conventions of the embedding.
    - A JavaScript string is a [string]; a non-ASCII character is the
      sequence of its UTF-8 bytes.  Every character the engine tests
      (braces, identifier characters, the four escaped characters) is
      ASCII, so the byte view and the UTF-16 view of the source agree on
      every operation modelled here.
    - [Map<string, ModuleDef>] is a [gmap string ModuleDef] and
      [Set<string>] a [gset string].
    - [Record<string, string>] is a plain object, as an object literal, a
      spread or [JSON.parse] builds it: a [gmap string string] holds its
      own properties, and reading a name that is not an own property
      falls back to [Object.prototype] ([getProperty]).
    - A function that can raise returns an [option]; [None] is the
      exception.
    - The recursive closure [dfs] threads its two captured mutable cells
      ([visited] and [out]) as an explicit state. *)

From Equations Require Import Equations.
From Stdlib Require Import String Ascii.
From stdpp Require Import gmap strings list fin_maps relations.

(** ** Characters that cannot be written inside a string literal *)

(** The double quote (code 34) and the line feed (code 10). *)
Definition dq : string := String "034"%char EmptyString.
Definition nl : string := String "010"%char EmptyString.

(** ** The registry: [src/registry/modules.ts] *)

(** [type OS = "mac" | "ubuntu"]. *)
Inductive OS : Set := mac | ubuntu.

(** The tag itself, as a template literal interpolates it. *)
Definition OS_tag (o : OS) : string :=
  match o with mac => "mac" | ubuntu => "ubuntu" end.

(** [type ScriptByOS = Partial<Record<OS, string>>]: each entry may be
    absent. *)
Record ScriptByOS : Set := { on_mac : option string; on_ubuntu : option string }.

(** [script[os]]. *)
Definition scriptFor (s : ScriptByOS) (o : OS) : option string :=
  match o with mac => on_mac s | ubuntu => on_ubuntu s end.

(** [type ModuleDef], restricted to the fields the engine reads.  The
    remaining fields (category, tags, iconSlug, shortDesc, suggests,
    inputs, defaultPolicy, installCheck, notSupportedReason) are only
    consumed by the user interface.  [requires] is optional. *)
Record ModuleDef : Set := {
  id : string;
  name : string;
  requires : option (list string);
  script : ScriptByOS
}.

(** [export const MODULES: ModuleDef[]], in source order.  A double quote
    inside a fragment is written [dq]. *)
Definition MODULES : list ModuleDef := [
  {| id := "base.clt";
     name := "Xcode Command Line Tools";
     requires := None;
     script :=
       {| on_mac := Some ("
echo " +:+ dq +:+ "[CLT] Checking Xcode Command Line Tools..." +:+ dq +:+ "
if xcode-select -p >/dev/null 2>&1; then
  echo " +:+ dq +:+ "[CLT] Already installed. Skipping." +:+ dq +:+ "
else
  echo " +:+ dq +:+ "[CLT] Installing... (a popup may appear)" +:+ dq +:+ "
  xcode-select --install || true
  echo " +:+ dq +:+ "[CLT] If installer popup opened, finish it then re-run the script." +:+ dq +:+ "
fi
");
          on_ubuntu := Some ("
echo " +:+ dq +:+ "[CLT] Not applicable on Ubuntu. Skipping." +:+ dq +:+ "
") |} |};
  {| id := "base.homebrew";
     name := "Homebrew";
     requires := Some ["base.clt"];
     script :=
       {| on_mac := Some ("
echo " +:+ dq +:+ "[BREW] Checking Homebrew..." +:+ dq +:+ "
if command -v brew >/dev/null 2>&1; then
  echo " +:+ dq +:+ "[BREW] Already installed. Skipping." +:+ dq +:+ "
else
  echo " +:+ dq +:+ "[BREW] Installing Homebrew..." +:+ dq +:+ "
  NONINTERACTIVE=1 /bin/bash -c " +:+ dq +:+ "$(curl -fsSL https://raw.githubusercontent.com/Homebrew/install/HEAD/install.sh)" +:+ dq +:+ "
  # Intel Mac 기준: /usr/local/bin/brew
  if [ -x " +:+ dq +:+ "/usr/local/bin/brew" +:+ dq +:+ " ]; then
    echo " +:+ dq +:+ "[BREW] Installed at /usr/local/bin/brew" +:+ dq +:+ "
  fi
fi
");
          on_ubuntu := Some ("
echo " +:+ dq +:+ "[BREW] Not used on Ubuntu (apt preferred). Skipping." +:+ dq +:+ "
") |} |};
  {| id := "base.apt";
     name := "apt update + essentials";
     requires := None;
     script :=
       {| on_mac := Some ("
echo " +:+ dq +:+ "[APT] Not applicable on macOS. Skipping." +:+ dq +:+ "
");
          on_ubuntu := Some ("
echo " +:+ dq +:+ "[APT] Updating apt & installing essentials..." +:+ dq +:+ "
sudo apt-get update -y
sudo apt-get install -y curl git build-essential ca-certificates
") |} |};
  {| id := "dev.git";
     name := "Git";
     requires := Some ["base.homebrew"];
     script :=
       {| on_mac := Some ("
echo " +:+ dq +:+ "[GIT] Installing git..." +:+ dq +:+ "
if command -v git >/dev/null 2>&1; then
  echo " +:+ dq +:+ "[GIT] Already installed. Skipping." +:+ dq +:+ "
else
  brew install git
fi
");
          on_ubuntu := Some ("
echo " +:+ dq +:+ "[GIT] Installing git..." +:+ dq +:+ "
if command -v git >/dev/null 2>&1; then
  echo " +:+ dq +:+ "[GIT] Already installed. Skipping." +:+ dq +:+ "
else
  sudo apt-get install -y git
fi
") |} |};
  {| id := "dev.git_config";
     name := "Git: user.name / user.email";
     requires := Some ["dev.git"];
     script :=
       {| on_mac := Some ("
echo " +:+ dq +:+ "[GIT-CONFIG] Setting global git identity..." +:+ dq +:+ "
git config --global user.name " +:+ dq +:+ "{{git_name}}" +:+ dq +:+ "
git config --global user.email " +:+ dq +:+ "{{git_email}}" +:+ dq +:+ "
git config --global init.defaultBranch main
git config --global fetch.prune true
git config --global core.autocrlf input
");
          on_ubuntu := Some ("
echo " +:+ dq +:+ "[GIT-CONFIG] Setting global git identity..." +:+ dq +:+ "
git config --global user.name " +:+ dq +:+ "{{git_name}}" +:+ dq +:+ "
git config --global user.email " +:+ dq +:+ "{{git_email}}" +:+ dq +:+ "
git config --global init.defaultBranch main
git config --global fetch.prune true
git config --global core.autocrlf input
") |} |};
  {| id := "lang.nvm";
     name := "nvm (Node Version Manager)";
     requires := Some ["dev.git"];
     script :=
       {| on_mac := Some ("
echo " +:+ dq +:+ "[NVM] Installing nvm..." +:+ dq +:+ "
if [ -s " +:+ dq +:+ "$HOME/.nvm/nvm.sh" +:+ dq +:+ " ]; then
  echo " +:+ dq +:+ "[NVM] Already installed. Skipping." +:+ dq +:+ "
else
  curl -fsSL https://raw.githubusercontent.com/nvm-sh/nvm/v0.40.3/install.sh | bash
fi
export NVM_DIR=" +:+ dq +:+ "$HOME/.nvm" +:+ dq +:+ "
[ -s " +:+ dq +:+ "$NVM_DIR/nvm.sh" +:+ dq +:+ " ] && . " +:+ dq +:+ "$NVM_DIR/nvm.sh" +:+ dq +:+ "
");
          on_ubuntu := Some ("
echo " +:+ dq +:+ "[NVM] Installing nvm..." +:+ dq +:+ "
if [ -s " +:+ dq +:+ "$HOME/.nvm/nvm.sh" +:+ dq +:+ " ]; then
  echo " +:+ dq +:+ "[NVM] Already installed. Skipping." +:+ dq +:+ "
else
  curl -fsSL https://raw.githubusercontent.com/nvm-sh/nvm/v0.40.3/install.sh | bash
fi
export NVM_DIR=" +:+ dq +:+ "$HOME/.nvm" +:+ dq +:+ "
[ -s " +:+ dq +:+ "$NVM_DIR/nvm.sh" +:+ dq +:+ " ] && . " +:+ dq +:+ "$NVM_DIR/nvm.sh" +:+ dq +:+ "
") |} |};
  {| id := "lang.node_lts";
     name := "Node.js (LTS via nvm)";
     requires := Some ["lang.nvm"];
     script :=
       {| on_mac := Some ("
echo " +:+ dq +:+ "[NODE] Installing Node LTS via nvm..." +:+ dq +:+ "
export NVM_DIR=" +:+ dq +:+ "$HOME/.nvm" +:+ dq +:+ "
[ -s " +:+ dq +:+ "$NVM_DIR/nvm.sh" +:+ dq +:+ " ] && . " +:+ dq +:+ "$NVM_DIR/nvm.sh" +:+ dq +:+ "
nvm install --lts
nvm use --lts
nvm alias default lts/*
echo " +:+ dq +:+ "[NODE] node=$(node -v) npm=$(npm -v)" +:+ dq +:+ "
");
          on_ubuntu := Some ("
echo " +:+ dq +:+ "[NODE] Installing Node LTS via nvm..." +:+ dq +:+ "
export NVM_DIR=" +:+ dq +:+ "$HOME/.nvm" +:+ dq +:+ "
[ -s " +:+ dq +:+ "$NVM_DIR/nvm.sh" +:+ dq +:+ " ] && . " +:+ dq +:+ "$NVM_DIR/nvm.sh" +:+ dq +:+ "
nvm install --lts
nvm use --lts
nvm alias default lts/*
echo " +:+ dq +:+ "[NODE] node=$(node -v) npm=$(npm -v)" +:+ dq +:+ "
") |} |};
  {| id := "dev.vscode";
     name := "VS Code";
     requires := Some ["base.homebrew"];
     script :=
       {| on_mac := Some ("
echo " +:+ dq +:+ "[VSCODE] Installing VS Code..." +:+ dq +:+ "
if brew list --cask visual-studio-code >/dev/null 2>&1; then
  echo " +:+ dq +:+ "[VSCODE] Already installed. Skipping." +:+ dq +:+ "
else
  brew install --cask visual-studio-code
fi
");
          on_ubuntu := Some ("
echo " +:+ dq +:+ "[VSCODE] Installing VS Code..." +:+ dq +:+ "
if command -v code >/dev/null 2>&1; then
  echo " +:+ dq +:+ "[VSCODE] Already installed. Skipping." +:+ dq +:+ "
else
  sudo snap install --classic code || true
  if ! command -v code >/dev/null 2>&1; then
    echo " +:+ dq +:+ "[VSCODE] Snap failed. Please install VS Code manually or via apt repo." +:+ dq +:+ "
  fi
fi
") |} |};
  {| id := "dev.gh_cli";
     name := "GitHub CLI (gh)";
     requires := Some ["base.homebrew"];
     script :=
       {| on_mac := Some ("
echo " +:+ dq +:+ "[GH] Installing GitHub CLI..." +:+ dq +:+ "
if command -v gh >/dev/null 2>&1; then
  echo " +:+ dq +:+ "[GH] Already installed. Skipping." +:+ dq +:+ "
else
  brew install gh
fi
");
          on_ubuntu := Some ("
echo " +:+ dq +:+ "[GH] Installing GitHub CLI..." +:+ dq +:+ "
if command -v gh >/dev/null 2>&1; then
  echo " +:+ dq +:+ "[GH] Already installed. Skipping." +:+ dq +:+ "
else
  sudo apt-get install -y gh || true
  if ! command -v gh >/dev/null 2>&1; then
    echo " +:+ dq +:+ "[GH] apt install failed. Please follow GitHub CLI official install." +:+ dq +:+ "
  fi
fi
") |} |};
  {| id := "dev.github_ssh";
     name := "GitHub SSH Key (ed25519)";
     requires := None;
     script :=
       {| on_mac := Some ("
echo " +:+ dq +:+ "[SSH] Setting up GitHub SSH key..." +:+ dq +:+ "
mkdir -p " +:+ dq +:+ "$HOME/.ssh" +:+ dq +:+ "
chmod 700 " +:+ dq +:+ "$HOME/.ssh" +:+ dq +:+ "

if [ -f " +:+ dq +:+ "$HOME/.ssh/id_ed25519" +:+ dq +:+ " ]; then
  echo " +:+ dq +:+ "[SSH] Key already exists. Skipping keygen." +:+ dq +:+ "
else
  ssh-keygen -t ed25519 -C " +:+ dq +:+ "{{ssh_email}}" +:+ dq +:+ " -f " +:+ dq +:+ "$HOME/.ssh/id_ed25519" +:+ dq +:+ " -N " +:+ dq +:+ dq +:+ "
fi

# Start agent
eval " +:+ dq +:+ "$(ssh-agent -s)" +:+ dq +:+ " >/dev/null
ssh-add " +:+ dq +:+ "$HOME/.ssh/id_ed25519" +:+ dq +:+ " >/dev/null

# Add github.com to known_hosts (avoid interactive prompt)
ssh-keyscan -t ed25519 github.com >> " +:+ dq +:+ "$HOME/.ssh/known_hosts" +:+ dq +:+ " 2>/dev/null || true
chmod 600 " +:+ dq +:+ "$HOME/.ssh/known_hosts" +:+ dq +:+ "

echo " +:+ dq +:+ "[SSH] Public key:" +:+ dq +:+ "
cat " +:+ dq +:+ "$HOME/.ssh/id_ed25519.pub" +:+ dq +:+ "
");
          on_ubuntu := Some ("
echo " +:+ dq +:+ "[SSH] Setting up GitHub SSH key..." +:+ dq +:+ "
mkdir -p " +:+ dq +:+ "$HOME/.ssh" +:+ dq +:+ "
chmod 700 " +:+ dq +:+ "$HOME/.ssh" +:+ dq +:+ "

if [ -f " +:+ dq +:+ "$HOME/.ssh/id_ed25519" +:+ dq +:+ " ]; then
  echo " +:+ dq +:+ "[SSH] Key already exists. Skipping keygen." +:+ dq +:+ "
else
  ssh-keygen -t ed25519 -C " +:+ dq +:+ "{{ssh_email}}" +:+ dq +:+ " -f " +:+ dq +:+ "$HOME/.ssh/id_ed25519" +:+ dq +:+ " -N " +:+ dq +:+ dq +:+ "
fi

eval " +:+ dq +:+ "$(ssh-agent -s)" +:+ dq +:+ " >/dev/null
ssh-add " +:+ dq +:+ "$HOME/.ssh/id_ed25519" +:+ dq +:+ " >/dev/null

ssh-keyscan -t ed25519 github.com >> " +:+ dq +:+ "$HOME/.ssh/known_hosts" +:+ dq +:+ " 2>/dev/null || true
chmod 600 " +:+ dq +:+ "$HOME/.ssh/known_hosts" +:+ dq +:+ "

echo " +:+ dq +:+ "[SSH] Public key:" +:+ dq +:+ "
cat " +:+ dq +:+ "$HOME/.ssh/id_ed25519.pub" +:+ dq +:+ "
") |} |};
  {| id := "cli.ripgrep";
     name := "ripgrep (rg)";
     requires := Some ["base.homebrew"];
     script :=
       {| on_mac := Some ("
echo " +:+ dq +:+ "[RG] Installing ripgrep..." +:+ dq +:+ "
command -v rg >/dev/null 2>&1 || brew install ripgrep
");
          on_ubuntu := Some ("
echo " +:+ dq +:+ "[RG] Installing ripgrep..." +:+ dq +:+ "
command -v rg >/dev/null 2>&1 || sudo apt-get install -y ripgrep
") |} |};
  {| id := "cli.jq";
     name := "jq";
     requires := Some ["base.homebrew"];
     script :=
       {| on_mac := Some ("
echo " +:+ dq +:+ "[JQ] Installing jq..." +:+ dq +:+ "
command -v jq >/dev/null 2>&1 || brew install jq
");
          on_ubuntu := Some ("
echo " +:+ dq +:+ "[JQ] Installing jq..." +:+ dq +:+ "
command -v jq >/dev/null 2>&1 || sudo apt-get install -y jq
") |} |};
  {| id := "cli.fzf";
     name := "fzf";
     requires := Some ["base.homebrew"];
     script :=
       {| on_mac := Some ("
echo " +:+ dq +:+ "[FZF] Installing fzf..." +:+ dq +:+ "
command -v fzf >/dev/null 2>&1 || brew install fzf
");
          on_ubuntu := Some ("
echo " +:+ dq +:+ "[FZF] Installing fzf..." +:+ dq +:+ "
command -v fzf >/dev/null 2>&1 || sudo apt-get install -y fzf
") |} |};
  {| id := "cli.bat";
     name := "bat";
     requires := Some ["base.homebrew"];
     script :=
       {| on_mac := Some ("
echo " +:+ dq +:+ "[BAT] Installing bat..." +:+ dq +:+ "
command -v bat >/dev/null 2>&1 || brew install bat
");
          on_ubuntu := Some ("
echo " +:+ dq +:+ "[BAT] Installing bat..." +:+ dq +:+ "
if command -v bat >/dev/null 2>&1; then
  echo " +:+ dq +:+ "[BAT] Already installed. Skipping." +:+ dq +:+ "
else
  sudo apt-get install -y bat || true
  # Ubuntu에서는 batcat일 수 있음
fi
") |} |};
  {| id := "cli.eza";
     name := "eza";
     requires := Some ["base.homebrew"];
     script :=
       {| on_mac := Some ("
echo " +:+ dq +:+ "[EZA] Installing eza..." +:+ dq +:+ "
command -v eza >/dev/null 2>&1 || brew install eza
");
          on_ubuntu := Some ("
echo " +:+ dq +:+ "[EZA] Installing eza..." +:+ dq +:+ "
command -v eza >/dev/null 2>&1 || sudo apt-get install -y eza || true
") |} |};
  {| id := "shell.starship";
     name := "Starship prompt";
     requires := Some ["base.homebrew"];
     script :=
       {| on_mac := Some ("
echo " +:+ dq +:+ "[STARSHIP] Installing starship..." +:+ dq +:+ "
command -v starship >/dev/null 2>&1 || brew install starship
echo '[ -x " +:+ dq +:+ "$(command -v starship)" +:+ dq +:+ " ] && eval " +:+ dq +:+ "$(starship init zsh)" +:+ dq +:+ "' >> " +:+ dq +:+ "$HOME/.zshrc" +:+ dq +:+ "
");
          on_ubuntu := Some ("
echo " +:+ dq +:+ "[STARSHIP] Installing starship..." +:+ dq +:+ "
command -v starship >/dev/null 2>&1 || curl -fsSL https://starship.rs/install.sh | sh -s -- -y
echo '[ -x " +:+ dq +:+ "$(command -v starship)" +:+ dq +:+ " ] && eval " +:+ dq +:+ "$(starship init bash)" +:+ dq +:+ "' >> " +:+ dq +:+ "$HOME/.bashrc" +:+ dq +:+ "
") |} |};
  {| id := "lang.python3";
     name := "Python3";
     requires := Some ["base.homebrew"];
     script :=
       {| on_mac := Some ("
echo " +:+ dq +:+ "[PY] Installing python3..." +:+ dq +:+ "
command -v python3 >/dev/null 2>&1 || brew install python
");
          on_ubuntu := Some ("
echo " +:+ dq +:+ "[PY] Installing python3..." +:+ dq +:+ "
command -v python3 >/dev/null 2>&1 || sudo apt-get install -y python3 python3-pip
") |} |};
  {| id := "lang.uv";
     name := "uv (fast Python package manager)";
     requires := Some ["lang.python3"];
     script :=
       {| on_mac := Some ("
echo " +:+ dq +:+ "[UV] Installing uv..." +:+ dq +:+ "
command -v uv >/dev/null 2>&1 || curl -fsSL https://astral.sh/uv/install.sh | sh
");
          on_ubuntu := Some ("
echo " +:+ dq +:+ "[UV] Installing uv..." +:+ dq +:+ "
command -v uv >/dev/null 2>&1 || curl -fsSL https://astral.sh/uv/install.sh | sh
") |} |};
  {| id := "verify.summary";
     name := "Verify: print versions summary";
     requires := None;
     script :=
       {| on_mac := Some ("
echo " +:+ dq +:+ "------------------------------" +:+ dq +:+ "
echo " +:+ dq +:+ "[VERIFY] Versions summary" +:+ dq +:+ "
command -v brew >/dev/null 2>&1 && brew --version | head -n 1 || true
command -v git >/dev/null 2>&1 && git --version || true
command -v node >/dev/null 2>&1 && node -v || true
command -v npm >/dev/null 2>&1 && npm -v || true
command -v python3 >/dev/null 2>&1 && python3 --version || true
command -v rg >/dev/null 2>&1 && rg --version | head -n 1 || true
command -v jq >/dev/null 2>&1 && jq --version || true
echo " +:+ dq +:+ "------------------------------" +:+ dq +:+ "
");
          on_ubuntu := Some ("
echo " +:+ dq +:+ "------------------------------" +:+ dq +:+ "
echo " +:+ dq +:+ "[VERIFY] Versions summary" +:+ dq +:+ "
command -v git >/dev/null 2>&1 && git --version || true
command -v node >/dev/null 2>&1 && node -v || true
command -v npm >/dev/null 2>&1 && npm -v || true
command -v python3 >/dev/null 2>&1 && python3 --version || true
command -v rg >/dev/null 2>&1 && rg --version | head -n 1 || true
command -v jq >/dev/null 2>&1 && jq --version || true
echo " +:+ dq +:+ "------------------------------" +:+ dq +:+ "
") |} |}
].

(** ** The engine: [src/core/generateScript.ts] *)

(** [type GenerateInput]. *)
Record GenerateInput : Type := {
  os : OS;
  selectedIds : list string;
  vars : gmap string string
}.

(** The value returned by [generateScript].  The source names the first
    field [script]; it is [scriptText] here because [script] already
    names the field of [ModuleDef]. *)
Record GenerateResult : Type := {
  scriptText : string;
  includedIds : list string
}.

(** [new Map(modules.map((m) => [m.id, m]))]: entries are inserted from
    left to right, so a later module replaces an earlier one that has the
    same id. *)
Definition buildIndex (modules : list ModuleDef) : gmap string ModuleDef :=
  fold_left (fun acc m => <[id m := m]> acc) modules ∅.

(** [mapById()]: the index of the shipped registry. *)
Definition mapById : gmap string ModuleDef := buildIndex MODULES.

(** [mod.requires ?? []]. *)
Definition requiresOf (m : ModuleDef) : list string := default [] (requires m).

(** The two cells captured by the closure [dfs]. *)
Record DfsState : Type := { visited : gset string; out : list string }.

(** [for (const x of xs) f(x)] for a body that threads a state and may
    fail to return. *)
Fixpoint forEach {St A : Type} (f : A -> St -> option St) (xs : list A) (st : St)
  : option St :=
  match xs with
  | [] => Some st
  | x :: xs' =>
      match f x st with
      | Some st' => forEach f xs' st'
      | None => None
      end
  end.

(** The closure [dfs] of [resolveWithDeps].  [fuel] bounds the depth of the
    recursion; [None] means that the bound was reached.  Theorem
    [dfs_terminates] shows that a bound above the number of keys of the
    index not yet visited is never reached. *)
Fixpoint dfs (fuel : nat) (byId : gmap string ModuleDef) (id : string) (st : DfsState)
  : option DfsState :=
  match fuel with
  | O => None
  | S fuel' =>
      if decide (id ∈ visited st) then Some st
      else
        let st1 := {| visited := {[id]} ∪ visited st; out := out st |} in
        match byId !! id with
        | None => Some st1
        | Some md =>
            match forEach (dfs fuel' byId) (requiresOf md) st1 with
            | Some st2 => Some {| visited := visited st2; out := out st2 ++ [id] |}
            | None => None
            end
        end
  end.

(** [const visited = new Set(); const out = []]. *)
Definition initial : DfsState := {| visited := ∅; out := [] |}.

(** [resolveWithDeps] run with recursion depth at most [fuel]. *)
Definition resolveWithDeps_fuel (fuel : nat) (ids : list string)
    (byId : gmap string ModuleDef) : option (list string) :=
  out <$> forEach (dfs fuel byId) ids initial.

(** [resolveWithDeps].  The depth of the recursion never exceeds the number
    of keys of the index plus one (theorem [resolveWithDeps_fuel_enough]),
    so the default is never taken. *)
Definition resolveWithDeps (ids : list string) (byId : gmap string ModuleDef)
  : list string :=
  default [] (resolveWithDeps_fuel (S (size byId)) ids byId).

(** The loop of [uniqueKeepOrder], started from the set [s] and the array
    [r] of [acc]. *)
Definition uniqueLoop (acc : gset string * list string) (ids : list string)
  : gset string * list string :=
  fold_left
    (fun (acc : gset string * list string) x =>
       let '(s, r) := acc in
       if decide (x ∈ s) then (s, r) else ({[x]} ∪ s, r ++ [x]))
    ids acc.

(** [uniqueKeepOrder]: the loop starts from the empty set and the empty
    array and returns the array. *)
Definition uniqueKeepOrder (ids : list string) : list string :=
  snd (uniqueLoop (∅, []) ids).

(** [v.replace(/c/g, by)] for a single character [c] and a replacement
    [by] that holds no [$] pattern: every occurrence of [c], from left to
    right, becomes [by]; the replacement text is not scanned again. *)
Fixpoint replaceAll (c : ascii) (rep : string) (v : string) : string :=
  match v with
  | EmptyString => EmptyString
  | String x v' =>
      if Ascii.eqb x c then rep +:+ replaceAll c rep v'
      else String x (replaceAll c rep v')
  end.

Definition backslash : ascii := "\"%char.
Definition dquote : ascii := "034"%char.
Definition dollar : ascii := "$"%char.
Definition backtick : ascii := "`"%char.

(** [escapeForDoubleQuotes]: four replacements, each applied to the result
    of the one before, in the order of the source. *)
Definition escapeForDoubleQuotes (v : string) : string :=
  let v1 := replaceAll backslash "\\" v in
  let v2 := replaceAll dquote ("\" +:+ dq) v1 in
  let v3 := replaceAll dollar "\$" v2 in
  replaceAll backtick "\`" v3.

(** The character class [[a-zA-Z0-9_]]. *)
Definition isIdentChar (c : ascii) : bool :=
  let n := nat_of_ascii c in
  ((97 <=? n) && (n <=? 122)) || ((65 <=? n) && (n <=? 90))
  || ((48 <=? n) && (n <=? 57)) || (n =? 95).

(** The longest prefix of identifier characters, and what follows it. *)
Fixpoint spanIdent (s : string) : string * string :=
  match s with
  | String c s' =>
      if isIdentChar c
      then let '(k, r) := spanIdent s' in (String c k, r)
      else (EmptyString, s)
  | EmptyString => (EmptyString, EmptyString)
  end.

(** [s] without its first two characters when these are [a] and [b]:
    a literal two-character piece of the pattern. *)
Definition stripPrefix2 (a b : ascii) (s : string) : option string :=
  match s with
  | String x (String y r) =>
      if Ascii.eqb x a && Ascii.eqb y b then Some r else None
  | _ => None
  end.

(** One attempt of the pattern [\{\{([a-zA-Z0-9_]+)\}\}] at the start of
    [s]: the captured key and the text after the match.  The class is
    greedy, and giving characters back cannot help because the next
    pattern character, a closing brace, is not in the class; so the key is
    the whole run of identifier characters. *)
Definition matchToken (s : string) : option (string * string) :=
  match stripPrefix2 "{" "{" s with
  | Some s1 =>
      match spanIdent s1 with
      | (String c k, r) =>
          match stripPrefix2 "}" "}" r with
          | Some rest => Some (String c k, rest)
          | None => None
          end
      | (EmptyString, _) => None
      end
  | None => None
  end.

Definition inspect {A : Type} (a : A) : {b : A | a = b} := exist _ a eq_refl.

(** The text after a match is shorter than the text matched: a match
    holds four braces. *)
Ltac scan_decreases Heq :=
  let Hspan := fresh "Hspan" in
  assert (forall s k r, spanIdent s = (k, r) ->
            String.length r <= String.length s) as Hspan
    by (let s := fresh "s" in
        let IH := fresh "IH" in
        induction s as [|? s IH]; intros k r; simpl;
        [ intros [= <- <-]; simpl; lia
        | match goal with
          | |- context [isIdentChar ?a] => destruct (isIdentChar a)
          end;
          [ destruct (spanIdent s) as [k' r']; intros [= <- <-];
            specialize (IH _ _ eq_refl); lia
          | intros [= <- <-]; simpl; lia ] ]);
  unfold matchToken in Heq;
  match goal with
  | |- String.length _ < String.length ?s =>
      let x := fresh "x" in
      let y := fresh "y" in
      let s1 := fresh "s" in
      destruct s as [|x [|y s1]]; simpl in Heq; try discriminate;
      destruct (Ascii.eqb x "{" && Ascii.eqb y "{"); [|discriminate];
      let E := fresh "E" in
      destruct (spanIdent s1) as [[|? ?] [|? [|? ?]]] eqn:E;
        simpl in Heq; try discriminate;
      match type of Heq with
      | context [Ascii.eqb ?p "}" && Ascii.eqb ?q "}"] =>
          destruct (Ascii.eqb p "}" && Ascii.eqb q "}"); [|discriminate]
      end;
      injection Heq as <- <-; apply Hspan in E; simpl in *; lia
  end.

(** The names that a plain object inherits from [Object.prototype]
    (ECMAScript, properties of the Object prototype object, with the
    legacy accessors of its annex B).  Each of them holds a function,
    except [__proto__], whose getter returns the prototype object. *)
Definition OBJECT_PROTOTYPE_KEYS : list string :=
  ["constructor"; "__defineGetter__"; "__defineSetter__"; "hasOwnProperty";
   "__lookupGetter__"; "__lookupSetter__"; "isPrototypeOf";
   "propertyIsEnumerable"; "toString"; "valueOf"; "__proto__";
   "toLocaleString"].

(** What [vars[key]] evaluates to. *)
Inductive PropertyValue : Set :=
| OwnString (v : string)
| Inherited
| Undefined.

(** [vars[key]]: the own property when there is one, otherwise what
    [Object.prototype] holds under that name, otherwise [undefined]. *)
Definition getProperty (vars : gmap string string) (key : string)
  : PropertyValue :=
  match vars !! key with
  | Some v => OwnString v
  | None =>
      if bool_decide (key ∈ OBJECT_PROTOTYPE_KEYS) then Inherited else Undefined
  end.

(** The callback of [applyVars]: [raw = vars[key] ?? ""], then
    [escapeForDoubleQuotes(raw)].  An inherited value is neither [null]
    nor [undefined], so it is kept, and it has no method [replace]: the
    call raises a [TypeError], which is the result [None]. *)
Definition substitute (vars : gmap string string) (key : string)
  : option string :=
  match getProperty vars key with
  | OwnString v => Some (escapeForDoubleQuotes v)
  | Undefined => Some (escapeForDoubleQuotes EmptyString)
  | Inherited => None
  end.

(** [applyVars]: [script.replace(/\{\{([a-zA-Z0-9_]+)\}\}/g, callback)].
    The scan goes from left to right; at a match the callback's result is
    emitted and the scan resumes after the match; elsewhere the character
    is copied.  The emitted text is not scanned again.  [None] when the
    callback raises. *)
Equations? applyVars (script : string) (vars : gmap string string)
  : option string
  by wf (String.length script) lt :=
  applyVars script vars with inspect (matchToken script) := {
    | exist _ (Some (key, rest)) Heq =>
        match substitute vars key with
        | Some v => (fun t => v +:+ t) <$> applyVars rest vars
        | None => None
        end
    | exist _ None _ with script := {
        | EmptyString => Some EmptyString
        | String c s' => String c <$> applyVars s' vars } }.
Proof.
  - scan_decreases Heq.
  - simpl. lia.
Qed.

(** The first block pushed by [generateScript]. *)
Definition header (o : OS) : string :=
  "#!/usr/bin/env bash
set -e

echo " +:+ dq +:+ "====================================" +:+ dq +:+ "
echo " +:+ dq +:+ "AI Lab Install Script Builder - RUN" +:+ dq +:+ "
echo " +:+ dq +:+ "OS: " +:+ OS_tag o +:+ dq +:+ "
echo " +:+ dq +:+ "====================================" +:+ dq +:+ "
".

(** The last block pushed by [generateScript]. *)
Definition footer : string :=
  nl +:+ "echo " +:+ dq +:+ "====================================" +:+ dq +:+ "
echo " +:+ dq +:+ "[DONE] Script finished." +:+ dq +:+ "
echo " +:+ dq +:+ "====================================" +:+ dq +:+ "
".

(** The line pushed for a module that has no fragment for the OS. *)
Definition skipNotice (md : ModuleDef) (o : OS) : string :=
  "echo " +:+ dq +:+ "[SKIP] " +:+ name md
    +:+ " (not supported on " +:+ OS_tag o +:+ ")" +:+ dq.

(** The banner comment pushed before a fragment. *)
Definition banner (md : ModuleDef) : string :=
  nl +:+ "# --------------------------------------------" +:+ nl
    +:+ "# " +:+ name md +:+ " (" +:+ id md +:+ ")" +:+ nl
    +:+ "# --------------------------------------------" +:+ nl.

(** One iteration of the loop [for (const id of ordered)]: the array
    [blocks] after it.  The test [!s] holds for [undefined] (no entry for
    the OS) and for the empty string.  [None] when [applyVars] raises. *)
Definition emitModule (byId : gmap string ModuleDef) (input : GenerateInput)
    (id : string) (blocks : list string) : option (list string) :=
  match byId !! id with
  | None => Some blocks
  | Some md =>
      match scriptFor (script md) (os input) with
      | None => Some (blocks ++ [skipNotice md (os input)])
      | Some EmptyString => Some (blocks ++ [skipNotice md (os input)])
      | Some s =>
          match applyVars s (vars input) with
          | Some t => Some ((blocks ++ [banner md]) ++ [t])
          | None => None
          end
      end
  end.

(** The array [blocks] just before [blocks.join]. *)
Definition assembleBlocks (byId : gmap string ModuleDef) (input : GenerateInput)
    (ordered : list string) : option (list string) :=
  match forEach (emitModule byId input) ordered [header (os input)] with
  | Some blocks => Some (blocks ++ [footer])
  | None => None
  end.

(** The constant [ordered] of [generateScript]. *)
Definition orderedIds (byId : gmap string ModuleDef) (input : GenerateInput)
  : list string :=
  let withDeps := resolveWithDeps (selectedIds input) byId in
  uniqueKeepOrder withDeps.

(** [generateScript] over an arbitrary index. *)
Definition generateScriptFrom (byId : gmap string ModuleDef) (input : GenerateInput)
  : option GenerateResult :=
  let ordered := orderedIds byId input in
  match assembleBlocks byId input ordered with
  | Some blocks =>
      Some {| scriptText := String.concat nl blocks; includedIds := ordered |}
  | None => None
  end.

(** [generateScript]: the index is the one of the shipped registry. *)
Definition generateScript (input : GenerateInput) : option GenerateResult :=
  generateScriptFrom mapById input.

(** ** Vocabulary of the specification *)

(** [requiresEdge byId m d]: [m] is a key of the index and its module
    lists [d] in [requires]. *)
Definition requiresEdge (byId : gmap string ModuleDef) (m d : string) : Prop :=
  exists md, byId !! m = Some md /\ d ∈ requiresOf md.

(** [before l d m]: [d] occurs in [l] at a position strictly smaller than
    a position of [m]. *)
Definition before (l : list string) (d m : string) : Prop :=
  exists i j, l !! i = Some d /\ l !! j = Some m /\ i < j.

(** Number of positions of [l] that hold [x]. *)
Definition occurrences (x : string) (l : list string) : nat :=
  length (filter (fun y => y = x) l).

(** [erases u l l']: [l'] is [l] with some (possibly none, possibly all)
    of the occurrences of [u] removed. *)
Inductive erases (u : string) : list string -> list string -> Prop :=
| erases_nil : erases u [] []
| erases_keep x l l' : erases u l l' -> erases u (x :: l) (x :: l')
| erases_skip l l' : erases u l l' -> erases u (u :: l) l'.

(** Two modules that differ at most by occurrences of [u] removed from
    [requires]. *)
Definition sameModuleBut (u : string) (m m' : ModuleDef) : Prop :=
  id m' = id m /\ name m' = name m /\ script m' = script m
  /\ erases u (requiresOf m) (requiresOf m').

(** Two indexes with the same keys whose modules are related by
    [sameModuleBut u]. *)
Definition sameIndexBut (u : string) (byId byId' : gmap string ModuleDef) : Prop :=
  forall k, option_Forall2 (sameModuleBut u) (byId !! k) (byId' !! k).

(** The specification's reading of the de-duplication pass: keep the first
    occurrence of every element, drop the later ones. *)
Fixpoint keepFirst (l : list string) : list string :=
  match l with
  | [] => []
  | x :: l' => x :: filter (fun y => y <> x) (keepFirst l')
  end.

(** What [escapeForDoubleQuotes] does to one character. *)
Definition escapeChar (c : ascii) : string :=
  if Ascii.eqb c backslash then "\\"
  else if Ascii.eqb c dquote then "\" +:+ dq
  else if Ascii.eqb c dollar then "\$"
  else if Ascii.eqb c backtick then "\`"
  else String c EmptyString.

(** The same escaping described one character at a time. *)
Fixpoint escapeEach (v : string) : string :=
  match v with
  | EmptyString => EmptyString
  | String c v' => escapeChar c +:+ escapeEach v'
  end.

(** The characters a POSIX shell treats specially between double quotes:
    the closing quote, the two expansion characters and the backslash. *)
Definition shellSpecial (c : ascii) : bool :=
  Ascii.eqb c backslash || Ascii.eqb c dquote
  || Ascii.eqb c dollar || Ascii.eqb c backtick.

(** The characters that a POSIX shell denotes by the body [s] of a
    double-quoted literal (POSIX Shell Command Language, 2.2.3): a
    backslash followed by one of the four special characters denotes that
    character, a backslash followed by a line feed denotes nothing, any
    other backslash is literal.  [None] when [s] holds an unescaped double
    quote (the literal would end there), an unescaped dollar sign or
    backtick (an expansion would start there), or ends in a lone
    backslash (it would escape the closing quote). *)
Fixpoint shellReads (s : string) : option string :=
  match s with
  | EmptyString => Some EmptyString
  | String c s' =>
      if Ascii.eqb c backslash then
        match s' with
        | EmptyString => None
        | String e s'' =>
            if shellSpecial e then String e <$> shellReads s''
            else if Ascii.eqb e "010"%char then shellReads s''
            else String c <$> shellReads s'
        end
      else if shellSpecial c then None
      else String c <$> shellReads s'
  end.

Definition lbrace : ascii := "{"%char.

(** [hasToken s]: the pattern of [applyVars] matches somewhere in [s]. *)
Fixpoint hasToken (s : string) : bool :=
  match s with
  | EmptyString => false
  | String _ s' =>
      match matchToken s with
      | Some _ => true
      | None => hasToken s'
      end
  end.

(** [isKey k]: [k] is a non-empty run of identifier characters. *)
Fixpoint allIdent (k : string) : bool :=
  match k with
  | EmptyString => true
  | String c k' => isIdentChar c && allIdent k'
  end.

Definition isKey (k : string) : bool :=
  match k with EmptyString => false | String _ _ => allIdent k end.

(** The keys that the scan of [applyVars] reads, in the order of the
    scan: the key of each match found from left to right, the scan
    resuming after the match. *)
Equations? tokenKeys (script : string) : list string
  by wf (String.length script) lt :=
  tokenKeys script with inspect (matchToken script) := {
    | exist _ (Some (key, rest)) Heq => key :: tokenKeys rest
    | exist _ None _ with script := {
        | EmptyString => []
        | String c s' => tokenKeys s' } }.
Proof.
  - scan_decreases Heq.
  - simpl. lia.
Qed.

(** The blocks pushed for the ids of [l], starting from no block. *)
Definition blocksOf (byId : gmap string ModuleDef) (input : GenerateInput)
    (l : list string) : option (list string) :=
  forEach (emitModule byId input) l [].

(** ** Notions used by the proofs *)

(** The number of keys of the index that are not visited yet; it bounds
    the depth of the calls still to come. *)
Definition pending (byId : gmap string ModuleDef) (st : DfsState) : nat :=
  size (dom byId ∖ visited st).

(** The invariant of the traversal.  [stack] is the set of ids whose call
    of [dfs] has started and not yet returned. *)
Record Inv (byId : gmap string ModuleDef) (stack : gset string)
    (st : DfsState) : Prop := {
  inv_visited : forall x, x ∈ visited st ->
    x ∈ out st \/ x ∈ stack \/ byId !! x = None;
  inv_out : forall x, x ∈ out st ->
    x ∈ visited st /\ (x ∉ stack) /\ is_Some (byId !! x);
  inv_stack : forall a, a ∈ stack -> a ∈ visited st;
  inv_nodup : NoDup (out st);
  inv_deps : forall m md d,
    m ∈ out st -> byId !! m = Some md -> d ∈ requiresOf md ->
    d ∈ visited st
    /\ (before (out st) d m \/ byId !! d = None \/ tc (requiresEdge byId) d m)
}.

(** Two states of the traversal that differ at most by the mark of [u]. *)
Definition agree (u : string) (st st' : DfsState) : Prop :=
  out st = out st' /\ forall x, x <> u -> x ∈ visited st <-> x ∈ visited st'.

(** [m] with every occurrence of [u] removed from [requires]. *)
Definition withoutRequire (u : string) (m : ModuleDef) : ModuleDef :=
  {| id := id m; name := name m;
     requires := filter (fun x => x <> u) <$> requires m;
     script := script m |}.

(** ** Sample registries *)

Definition noScript : ScriptByOS := {| on_mac := None; on_ubuntu := None |}.

(** A requires B and B requires A. *)
Definition cycleA : ModuleDef :=
  {| id := "A"; name := "Module A"; requires := Some ["B"]; script := noScript |}.
Definition cycleB : ModuleDef :=
  {| id := "B"; name := "Module B"; requires := Some ["A"]; script := noScript |}.
Definition cycleIndex : gmap string ModuleDef := buildIndex [cycleA; cycleB].

(** A module that requires an id that is not in the registry. *)
Definition dangling : ModuleDef :=
  {| id := "A"; name := "Module A"; requires := Some ["ghost"]; script := noScript |}.
Definition danglingIndex : gmap string ModuleDef := buildIndex [dangling].

Definition select (o : OS) (ids : list string) : GenerateInput :=
  {| os := o; selectedIds := ids; vars := ∅ |}.

(** A module for Ubuntu only, a module whose macOS fragment is the empty
    string, and a module that requires both. *)
Definition ubuntuOnly : ModuleDef :=
  {| id := "tool"; name := "Tool"; requires := None;
     script := {| on_mac := None; on_ubuntu := Some "echo tool" |} |}.
Definition emptyOnMac : ModuleDef :=
  {| id := "stub"; name := "Stub"; requires := None;
     script := {| on_mac := Some EmptyString; on_ubuntu := Some "echo stub" |} |}.
Definition needsBoth : ModuleDef :=
  {| id := "app"; name := "App"; requires := Some ["tool"; "stub"];
     script := {| on_mac := Some "echo app"; on_ubuntu := Some "echo app" |} |}.
Definition skipIndex : gmap string ModuleDef :=
  buildIndex [ubuntuOnly; emptyOnMac; needsBoth].

(** ** The application: [src/App.tsx] *)

Module App.

(** [type InputDef] of [src/registry/modules.ts]. *)
Record InputDef : Set := {
  key : string;
  label : string;
  placeholder : option string;
  required : option bool;
  sensitive : option bool;
  defaultValue : option string;
  hint : option string
}.

(** The field [inputs] of the modules of [MODULES], which [ModuleDef]
    leaves out: only [dev.git_config] and [dev.github_ssh] declare
    inputs. *)
Definition MODULE_INPUTS (m : ModuleDef) : option (list InputDef) :=
  if decide (id m = "dev.git_config") then
    Some [ {| key := "git_name"; label := "Git user.name";
              placeholder := Some "ChoiJS"; required := Some true;
              sensitive := None; defaultValue := None;
              hint := Some "커밋에 찍힐 이름" |};
           {| key := "git_email"; label := "Git user.email";
              placeholder := Some "you@example.com"; required := Some true;
              sensitive := None; defaultValue := None;
              hint := Some "커밋에 찍힐 이메일" |} ]
  else if decide (id m = "dev.github_ssh") then
    Some [ {| key := "ssh_email"; label := "SSH key comment (email)";
              placeholder := Some "you@example.com"; required := Some true;
              sensitive := None; defaultValue := None;
              hint := Some "ssh-keygen -C 에 들어감" |} ]
  else None.

(** [s.add(k)] for a [Set<string>] kept as the list of its elements in
    insertion order. *)
Definition setAdd (s : list string) (k : string) : list string :=
  if decide (k ∈ s) then s else s ++ [k].

Section Inputs.

(** The field [m.inputs]. *)
Variable inputs : ModuleDef -> option (list InputDef).

(** The set [neededKeys] built by the two nested loops of
    [buildVarsFromInputs]. *)
Definition neededKeys (selected : list ModuleDef) : list string :=
  fold_left
    (fun s m =>
       fold_left (fun s inp => setAdd s (key inp)) (default [] (inputs m)) s)
    selected [].

(** [buildVarsFromInputs]: a copy of [vars] in which every needed key [k]
    for which [out[k] === undefined] gets the empty string.  A key that
    [Object.prototype] defines is not [undefined] and is left alone. *)
Definition buildVarsFromInputs (selected : list ModuleDef)
    (vars : gmap string string) : gmap string string :=
  fold_left
    (fun out k =>
       match getProperty out k with
       | Undefined => <[k := EmptyString]> out
       | _ => out
       end)
    (neededKeys selected) vars.

End Inputs.

(** [selectedIds.map((id) => map.get(id)).filter(Boolean)] over an
    arbitrary index. *)
Definition selectedModulesFrom (byId : gmap string ModuleDef)
    (selectedIds : list string) : list ModuleDef :=
  omap (fun i => byId !! i) selectedIds.

(** [selectedModules]: the index is built from [MODULES]. *)
Definition selectedModules (selectedIds : list string) : list ModuleDef :=
  selectedModulesFrom (buildIndex MODULES) selectedIds.

(** [finalVars] and [result]: what the application shows for a state
    [os], [selectedIds], [vars]. *)
Definition result (o : OS) (selectedIds : list string)
    (vars : gmap string string) : option GenerateResult :=
  generateScript
    {| os := o; selectedIds := selectedIds;
       vars := buildVarsFromInputs MODULE_INPUTS (selectedModules selectedIds) vars |}.

(** The updater of [addModule]. *)
Definition addModule (id : string) (prev : list string) : list string :=
  if decide (id ∈ prev) then prev else prev ++ [id].

(** The updater of [removeModule]. *)
Definition removeModule (id : string) (prev : list string) : list string :=
  filter (fun x => x <> id) prev.

(** [moveUp]: the new value of [selectedIds].  For [idx <= 0] nothing is
    updated.  Otherwise the two cells are exchanged on a copy; when [idx]
    is not a position of the array the exchange stores [undefined] in it,
    and the result is not an array of strings any more: [None]. *)
Definition moveUp (idx : nat) (prev : list string) : option (list string) :=
  match idx with
  | O => Some prev
  | S i =>
      match prev !! i, prev !! idx with
      | Some x, Some y => Some (<[idx := x]> (<[i := y]> prev))
      | _, _ => None
      end
  end.

(** [moveDown]: the updater returns [prev] when [idx >= prev.length - 1]
    (an index is never negative), and exchanges the two cells on a copy
    otherwise. *)
Definition moveDown (idx : nat) (prev : list string) : list string :=
  if length prev - 1 <=? idx then prev
  else
    match prev !! idx, prev !! (idx + 1) with
    | Some x, Some y => <[idx + 1 := x]> (<[idx := y]> prev)
    | _, _ => prev
    end.

End App.

(** ** The first version of the application (checkbox builder) *)

Module LegacyApp.

(** [type Platform = "mac" | "ubuntu"]. *)
Inductive Platform : Set := mac | ubuntu.

Definition Platform_tag (p : Platform) : string :=
  match p with mac => "mac" | ubuntu => "ubuntu" end.

(** [type Item]; [commands] has an entry for each platform. *)
Record Item : Set := {
  id : string;
  label : string;
  desc : option string;
  commands : Platform -> list string;
  default : option bool
}.

(** [const ITEMS: Item[]]. *)
Definition ITEMS : list Item := [
  {| id := "brew";
     label := "Homebrew (macOS)";
     desc := Some "brew 없으면 설치";
     commands := fun p =>
       match p with
       | mac =>
           ["# Homebrew";
            "if ! command -v brew >/dev/null 2>&1; then";
            ("  echo " +:+ dq +:+ "[+] Installing Homebrew..." +:+ dq);
            ("  /bin/bash -c " +:+ dq +:+ "$(curl -fsSL https://raw.githubusercontent.com/Homebrew/install/HEAD/install.sh)" +:+ dq);
            "fi"]
       | ubuntu =>
           []
       end;
     default := Some true |};
  {| id := "git";
     label := "Git";
     desc := None;
     commands := fun p =>
       match p with
       | mac =>
           ["brew install git"]
       | ubuntu =>
           ["sudo apt-get update -y";
            "sudo apt-get install -y git"]
       end;
     default := Some true |};
  {| id := "nvm_node";
     label := "Node (NVM + LTS)";
     desc := Some "Homebrew 대신 NVM 방식";
     commands := fun p =>
       match p with
       | mac =>
           ["# NVM + Node LTS";
            ("export NVM_DIR=" +:+ dq +:+ "$HOME/.nvm" +:+ dq);
            ("if [ ! -d " +:+ dq +:+ "$NVM_DIR" +:+ dq +:+ " ]; then");
            ("  echo " +:+ dq +:+ "[+] Installing nvm..." +:+ dq);
            "  curl -o- https://raw.githubusercontent.com/nvm-sh/nvm/v0.40.3/install.sh | bash";
            "fi";
            ("[ -s " +:+ dq +:+ "$NVM_DIR/nvm.sh" +:+ dq +:+ " ] && . " +:+ dq +:+ "$NVM_DIR/nvm.sh" +:+ dq);
            "nvm install --lts";
            "nvm use --lts";
            "node -v";
            "npm -v"]
       | ubuntu =>
           ["# NVM + Node LTS";
            ("export NVM_DIR=" +:+ dq +:+ "$HOME/.nvm" +:+ dq);
            ("if [ ! -d " +:+ dq +:+ "$NVM_DIR" +:+ dq +:+ " ]; then");
            ("  echo " +:+ dq +:+ "[+] Installing nvm..." +:+ dq);
            "  curl -o- https://raw.githubusercontent.com/nvm-sh/nvm/v0.40.3/install.sh | bash";
            "fi";
            ("[ -s " +:+ dq +:+ "$NVM_DIR/nvm.sh" +:+ dq +:+ " ] && . " +:+ dq +:+ "$NVM_DIR/nvm.sh" +:+ dq);
            "nvm install --lts";
            "nvm use --lts";
            "node -v";
            "npm -v"]
       end;
     default := Some true |};
  {| id := "ssh_github";
     label := "GitHub SSH Key";
     desc := Some "ed25519 키 생성 + agent 등록";
     commands := fun p =>
       match p with
       | mac =>
           ["# GitHub SSH key (ed25519)";
            "mkdir -p ~/.ssh";
            ("ssh-keygen -t ed25519 -C " +:+ dq +:+ "YOUR_EMAIL" +:+ dq +:+ " -f ~/.ssh/id_ed25519");
            ("eval " +:+ dq +:+ "$(ssh-agent -s)" +:+ dq);
            "ssh-add ~/.ssh/id_ed25519";
            ("echo " +:+ dq +:+ "[+] Copy this and paste into GitHub → Settings → SSH Keys" +:+ dq);
            "cat ~/.ssh/id_ed25519.pub";
            "ssh -T git@github.com"]
       | ubuntu =>
           ["# GitHub SSH key (ed25519)";
            "mkdir -p ~/.ssh";
            ("ssh-keygen -t ed25519 -C " +:+ dq +:+ "YOUR_EMAIL" +:+ dq +:+ " -f ~/.ssh/id_ed25519");
            ("eval " +:+ dq +:+ "$(ssh-agent -s)" +:+ dq);
            "ssh-add ~/.ssh/id_ed25519";
            ("echo " +:+ dq +:+ "[+] Copy this and paste into GitHub → Settings → SSH Keys" +:+ dq);
            "cat ~/.ssh/id_ed25519.pub";
            "ssh -T git@github.com"]
       end;
     default := None |}
].

(** The lines pushed before the loop over [ITEMS]. *)
Definition preamble (platform : Platform) : list string :=
  let lines :=
    ["#!/usr/bin/env bash"; "set -euo pipefail"; EmptyString;
     "echo " +:+ dq +:+ "[+] Platform: " +:+ Platform_tag platform +:+ dq;
     EmptyString] in
  match platform with
  | ubuntu => lines ++ ["# Base"; "sudo apt-get update -y"; EmptyString]
  | mac => lines
  end.

(** One iteration of the loop [for (const item of ITEMS)]. *)
Definition pushItem (platform : Platform) (selected : gset string)
    (lines : list string) (item : Item) : list string :=
  if decide (id item ∈ selected) then
    match commands item platform with
    | [] => lines
    | cmds => (lines ++ ["# --- " +:+ label item +:+ " ---"]) ++ cmds ++ [EmptyString]
    end
  else lines.

(** [buildScript] over an arbitrary list of items. *)
Definition buildScriptFrom (items : list Item) (platform : Platform)
    (selected : gset string) : string :=
  String.concat nl (fold_left (pushItem platform selected) items (preamble platform)).

(** [buildScript]. *)
Definition buildScript (platform : Platform) (selected : gset string) : string :=
  buildScriptFrom ITEMS platform selected.

(** The initial value of [selected]: the ids of the items marked
    [default]. *)
Definition defaultSelected : gset string :=
  fold_left
    (fun s it => match default it with Some true => {[id it]} ∪ s | _ => s end)
    ITEMS ∅.

(** The updater of [toggle]. *)
Definition toggle (i : string) (prev : gset string) : gset string :=
  if decide (i ∈ prev) then prev ∖ {[i]} else {[i]} ∪ prev.

End LegacyApp.

(** ** Further notions used by the proofs *)

(** [requiresEarlier seen ms]: every module of [ms] has an id that was not
    seen before it and requires only ids seen before it, [seen] being the
    ids met so far. *)
Fixpoint requiresEarlier (seen : list string) (ms : list ModuleDef) : bool :=
  match ms with
  | [] => true
  | m :: ms' =>
      forallb (fun d => bool_decide (d ∈ seen)) (requiresOf m)
      && bool_decide (id m ∉ seen)
      && requiresEarlier (seen ++ [id m]) ms'
  end.

(** Position of the first occurrence of [x] in [ids] (the length of [ids]
    when there is none). *)
Fixpoint rankOf (ids : list string) (x : string) : nat :=
  match ids with
  | [] => 0
  | y :: ids' => if decide (x = y) then 0 else S (rankOf ids' x)
  end.

(** [hasFragment o md]: the module has a non-empty fragment for [o]. *)
Definition hasFragment (o : OS) (md : ModuleDef) : bool :=
  match scriptFor (script md) o with
  | Some (String _ _) => true
  | _ => false
  end.

(** The two blocks that a module with a fragment for the OS contributes:
    its banner, then its fragment with the variables substituted. *)
Definition bannerAndFragment (byId : gmap string ModuleDef)
    (input : GenerateInput) (id : string) : option (list string) :=
  match byId !! id with
  | Some md =>
      match scriptFor (script md) (os input) with
      | Some s =>
          match applyVars s (vars input) with
          | Some t => Some [banner md; t]
          | None => None
          end
      | None => None
      end
  | None => None
  end.

(** [readsInherited s]: the scan of [s] reads a key that
    [Object.prototype] defines. *)
Definition readsInherited (s : string) : bool :=
  existsb (fun k => bool_decide (k ∈ OBJECT_PROTOTYPE_KEYS)) (tokenKeys s).

(** [safeFragments md]: no fragment of the module reads such a key. *)
Definition safeFragments (md : ModuleDef) : bool :=
  forallb
    (fun o =>
       match scriptFor (script md) o with
       | Some s => negb (readsInherited s)
       | None => true
       end)
    [mac; ubuntu].

(** Number of characters of [v] that [escapeForDoubleQuotes] escapes. *)
Fixpoint countSpecial (v : string) : nat :=
  match v with
  | EmptyString => 0
  | String c v' => (if shellSpecial c then 1 else 0) + countSpecial v'
  end.

(** * Properties *)

(** ** The resolver always returns *)

Section Resolver.

Variable byId : gmap string ModuleDef.

Lemma forEach_visited (f : string -> DfsState -> option DfsState) :
  (forall x st st', f x st = Some st' ->
     visited st ⊆ visited st' /\ x ∈ visited st') ->
  forall xs st st', forEach f xs st = Some st' ->
    visited st ⊆ visited st' /\ forall x, x ∈ xs -> x ∈ visited st'.
Proof.
  intros Hf xs. induction xs as [|x xs IH]; intros st st' H; simpl in H.
  - injection H as <-. split; [done|]. intros x Hx. by apply elem_of_nil in Hx.
  - destruct (f x st) as [st1|] eqn:E; [|done].
    destruct (Hf _ _ _ E) as [Hsub Hx]. destruct (IH _ _ H) as [Hsub' Hxs].
    split; [set_solver|]. intros y [->|Hy]%elem_of_cons; [set_solver|auto].
Qed.

Lemma dfs_visited fuel : forall id st st',
  dfs fuel byId id st = Some st' ->
  visited st ⊆ visited st' /\ id ∈ visited st'.
Proof.
  induction fuel as [|fuel IH]; intros id st st' H; simpl in H; [done|].
  case_decide as Hv; [by injection H as <-|].
  destruct (byId !! id) as [md|].
  - destruct (forEach _ _ _) as [st2|] eqn:E; [|done]. injection H as <-. simpl.
    apply (forEach_visited _ IH) in E as [Hsub _]. simpl in Hsub. set_solver.
  - injection H as <-. simpl. set_solver.
Qed.

Lemma forEach_dfs_visited fuel xs st st' :
  forEach (dfs fuel byId) xs st = Some st' ->
  visited st ⊆ visited st' /\ forall x, x ∈ xs -> x ∈ visited st'.
Proof. apply forEach_visited, dfs_visited. Qed.

Lemma pending_mono st st' : visited st ⊆ visited st' -> pending byId st' <= pending byId st.
Proof.
  intros H. unfold pending.
  apply (subseteq_size (C := gset string)). set_solver.
Qed.

Lemma forEach_terminates (f : string -> DfsState -> option DfsState) n :
  (forall x st, pending byId st < n -> is_Some (f x st)) ->
  (forall x st st', f x st = Some st' -> visited st ⊆ visited st') ->
  forall xs st, pending byId st < n -> is_Some (forEach f xs st).
Proof.
  intros Hf Hmono xs. induction xs as [|x xs IH]; intros st Hst; simpl; [by eexists|].
  destruct (Hf x st Hst) as [st1 E]. rewrite E. apply IH.
  apply Hmono, pending_mono in E. lia.
Qed.

Lemma dfs_terminates fuel : forall id st,
  pending byId st < fuel -> is_Some (dfs fuel byId id st).
Proof.
  induction fuel as [|fuel IH]; intros id st Hlt; [lia|]. simpl.
  case_decide as Hv; [by eexists|].
  destruct (byId !! id) as [md|] eqn:Hid; [|by eexists].
  destruct (forEach_terminates (dfs fuel byId) fuel IH) with
    (xs := requiresOf md)
    (st := {| visited := {[id]} ∪ visited st; out := out st |}) as [st2 ->].
  - intros x s s' E. by apply dfs_visited in E as [? _].
  - assert (pending byId {| visited := {[id]} ∪ visited st; out := out st |} < pending byId st);
      [|lia].
    unfold pending; simpl. apply (subset_size (C := gset string)).
    assert (id ∈ dom byId) by (apply elem_of_dom; eauto).
    set_solver.
  - by eexists.
Qed.

Lemma forEach_ext_Some {St A} (f g : A -> St -> option St) :
  (forall x st st', f x st = Some st' -> g x st = Some st') ->
  forall xs st st', forEach f xs st = Some st' -> forEach g xs st = Some st'.
Proof.
  intros Hfg xs. induction xs as [|x xs IH]; intros st st' H; simpl in *; [done|].
  destruct (f x st) as [st1|] eqn:E; [|done]. rewrite (Hfg _ _ _ E). auto.
Qed.

(** More fuel never changes a result. *)
Lemma dfs_fuel_mono fuel : forall fuel' id st st',
  fuel <= fuel' -> dfs fuel byId id st = Some st' -> dfs fuel' byId id st = Some st'.
Proof.
  induction fuel as [|fuel IH]; intros fuel' id st st' Hle H; simpl in H; [done|].
  destruct fuel' as [|fuel']; [lia|]. simpl.
  case_decide; [done|]. destruct (byId !! id) as [md|]; [|done].
  destruct (forEach (dfs fuel byId) _ _) as [st2|] eqn:E; [|done].
  apply (forEach_ext_Some _ (dfs fuel' byId)) in E; [by rewrite E|].
  intros x s s'. apply IH. lia.
Qed.

Lemma resolveWithDeps_fuel_mono fuel fuel' ids o :
  fuel <= fuel' -> resolveWithDeps_fuel fuel ids byId = Some o ->
  resolveWithDeps_fuel fuel' ids byId = Some o.
Proof.
  unfold resolveWithDeps_fuel. intros Hle H.
  destruct (forEach (dfs fuel byId) _ _) as [st|] eqn:E; [|done].
  apply (forEach_ext_Some _ (dfs fuel' byId)) in E; [by rewrite E|].
  intros x s s'. by apply dfs_fuel_mono.
Qed.

(** A depth bound above the number of keys of the index is never reached,
    and every such bound gives the result [resolveWithDeps]. *)
Lemma resolveWithDeps_fuel_enough fuel ids :
  size byId < fuel ->
  resolveWithDeps_fuel fuel ids byId = Some (resolveWithDeps ids byId).
Proof.
  intros Hlt.
  assert (is_Some (resolveWithDeps_fuel (S (size byId)) ids byId)) as [o Ho].
  { unfold resolveWithDeps_fuel.
    destruct (forEach_terminates (dfs (S (size byId)) byId) (S (size byId)))
      with (xs := ids) (st := initial) as [st E].
    - apply dfs_terminates.
    - intros x s s' E. by apply dfs_visited in E as [? _].
    - unfold pending, initial; simpl.
      rewrite difference_empty_L, size_dom. lia.
    - rewrite E. by eexists. }
  unfold resolveWithDeps. rewrite Ho. simpl.
  apply (resolveWithDeps_fuel_mono (S (size byId))); [lia|done].
Qed.

End Resolver.

(** ** What the traversal maintains *)

Section Traversal.

Variable byId : gmap string ModuleDef.

Lemma before_app_l l l' d m : before l d m -> before (l ++ l') d m.
Proof.
  intros (i & j & Hi & Hj & Hlt). exists i, j.
  split_and!; [by apply lookup_app_l_Some..|done].
Qed.

Lemma before_snoc l d m : d ∈ l -> before (l ++ [m]) d m.
Proof.
  intros [i Hi]%list_elem_of_lookup. exists i, (length l).
  split_and!.
  - by apply lookup_app_l_Some.
  - by rewrite list_lookup_middle.
  - by apply lookup_lt_Some in Hi.
Qed.

Lemma before_NoDup_asym l d m : NoDup l -> before l d m -> ~ before l m d.
Proof.
  intros Hnd (i & j & Hi & Hj & Hlt) (i' & j' & Hi' & Hj' & Hlt').
  assert (i = j') by eauto using NoDup_lookup.
  assert (j = i') by eauto using NoDup_lookup. lia.
Qed.

Lemma Inv_initial : Inv byId ∅ initial.
Proof.
  split; unfold initial; simpl.
  - intros x Hx. set_solver.
  - intros x Hx. by apply elem_of_nil in Hx.
  - intros a Ha. set_solver.
  - constructor.
  - intros m md d Hm. by apply elem_of_nil in Hm.
Qed.

(** Entering the call for an unvisited id. *)
Lemma Inv_enter stack st id :
  Inv byId stack st -> id ∉ visited st ->
  Inv byId ({[id]} ∪ stack) {| visited := {[id]} ∪ visited st; out := out st |}.
Proof.
  intros [Hv Ho Hs Hn Hd] Hid. split; simpl.
  - intros x [->%elem_of_singleton|Hx]%elem_of_union; [set_solver|].
    destruct (Hv x Hx) as [?|[?|?]]; set_solver.
  - intros x Hx. destruct (Ho x Hx) as (? & ? & ?).
    split_and!; [set_solver| |done].
    intros [->%elem_of_singleton|?]%elem_of_union; done.
  - intros a [->%elem_of_singleton|Ha]%elem_of_union; [set_solver|].
    specialize (Hs a Ha). set_solver.
  - done.
  - intros m md d Hm Hmd Hdm. destruct (Hd m md d Hm Hmd Hdm) as [? ?].
    split; [set_solver|done].
Qed.

(** An id that is not a key of the index is only marked. *)
Lemma Inv_unknown stack st id :
  Inv byId stack st -> byId !! id = None ->
  Inv byId stack {| visited := {[id]} ∪ visited st; out := out st |}.
Proof.
  intros [Hv Ho Hs Hn Hd] Hid. split; simpl.
  - intros x [->%elem_of_singleton|Hx]%elem_of_union; [auto|].
    destruct (Hv x Hx) as [?|[?|?]]; auto.
  - intros x Hx. destruct (Ho x Hx) as (? & ? & ?).
    split_and!; [set_solver|done..].
  - intros a Ha. specialize (Hs a Ha). set_solver.
  - done.
  - intros m md d Hm Hmd Hdm. destruct (Hd m md d Hm Hmd Hdm) as [? ?].
    split; [set_solver|done].
Qed.

(** Leaving the call: the id is appended after its requirements. *)
Lemma Inv_leave stack st st2 id md :
  Inv byId stack st -> id ∉ visited st -> byId !! id = Some md ->
  (forall a, a ∈ stack -> tc (requiresEdge byId) a id) ->
  Inv byId ({[id]} ∪ stack) st2 ->
  {[id]} ∪ visited st ⊆ visited st2 ->
  (forall d, d ∈ requiresOf md -> d ∈ visited st2) ->
  Inv byId stack {| visited := visited st2; out := out st2 ++ [id] |}.
Proof.
  intros Hst Hid Hmd Hstack [Hv Ho Hs Hn Hd] Hsub Hreq.
  assert (id ∉ out st2) as Hfresh.
  { intros Hin. destruct (Ho _ Hin) as (_ & Hno & _). set_solver. }
  split; simpl.
  - intros x Hx. rewrite elem_of_app, list_elem_of_singleton.
    destruct (Hv x Hx) as [?|[[->%elem_of_singleton|?]%elem_of_union|?]]; auto.
  - intros x [Hx| ->%list_elem_of_singleton]%elem_of_app.
    + destruct (Ho x Hx) as (? & ? & ?). split_and!; [done|set_solver|done].
    + split_and!; [set_solver| |eauto].
      intros Ha. apply Hid. by apply (inv_stack _ _ _ Hst).
  - intros a Ha. pose proof (inv_stack _ _ _ Hst a Ha). set_solver.
  - apply NoDup_app. split_and!; [done| |apply NoDup_singleton].
    intros x Hx ->%list_elem_of_singleton. done.
  - intros m md' d [Hm| ->%list_elem_of_singleton]%elem_of_app Hmd' Hdm.
    + destruct (Hd m md' d Hm Hmd' Hdm) as [? [?|[?|?]]].
      split; [done|]. left. by apply before_app_l.
      all: auto.
    + assert (md' = md) as -> by congruence.
      split; [auto|].
      destruct (Hv d (Hreq d Hdm))
        as [?|[[->%elem_of_singleton|?]%elem_of_union|?]].
      * left. by apply before_snoc.
      * right; right. apply tc_once. by exists md.
      * right; right. auto.
      * auto.
Qed.

(** [dfs] maintains the invariant, whatever the stack of pending calls. *)
Lemma dfs_Inv fuel : forall id st st' stack,
  dfs fuel byId id st = Some st' ->
  Inv byId stack st ->
  (forall a, a ∈ stack -> tc (requiresEdge byId) a id) ->
  Inv byId stack st'.
Proof.
  induction fuel as [|fuel IH]; intros id st st' stack H Hst Hstack;
    simpl in H; [done|].
  case_decide as Hv; [by injection H as <-|].
  destruct (byId !! id) as [md|] eqn:Hid.
  - destruct (forEach _ _ _) as [st2|] eqn:E; [|done]. injection H as <-.
    assert (forall xs s s',
      forEach (dfs fuel byId) xs s = Some s' ->
      (forall x, x ∈ xs -> x ∈ requiresOf md) ->
      Inv byId ({[id]} ∪ stack) s -> Inv byId ({[id]} ∪ stack) s') as Hloop.
    { induction xs as [|x xs IHxs]; intros s s' Hrun Hxs Hs; simpl in Hrun.
      - by injection Hrun as <-.
      - destruct (dfs fuel byId x s) as [s1|] eqn:Ex; [|done].
        apply (IHxs s1 s' Hrun); [intros; apply Hxs; by right|].
        apply (IH _ _ _ _ Ex Hs).
        assert (requiresEdge byId id x) by (exists md; split; [done|apply Hxs; by left]).
        intros a [->%elem_of_singleton|Ha]%elem_of_union.
        + by apply tc_once.
        + eapply tc_r; eauto. }
    pose proof (forEach_dfs_visited _ _ _ _ _ E) as [Hsub Hreq]. simpl in Hsub.
    eapply Inv_leave; eauto.
    eapply Hloop; eauto. by apply Inv_enter.
  - injection H as <-. by apply Inv_unknown.
Qed.

Lemma forEach_dfs_Inv fuel ids st' :
  forEach (dfs fuel byId) ids initial = Some st' ->
  Inv byId ∅ st' /\ forall x, x ∈ ids -> x ∈ visited st'.
Proof.
  intros H. split; [|by apply forEach_dfs_visited in H as [_ ?]].
  revert H. generalize Inv_initial. generalize initial.
  induction ids as [|x xs IH]; intros s Hs H; simpl in H.
  - by injection H as <-.
  - destruct (dfs fuel byId x s) as [s1|] eqn:E; [|done].
    apply (IH s1); [|done]. eapply dfs_Inv; eauto. set_solver.
Qed.

End Traversal.

(** ** The result of [resolveWithDeps] *)

Section Resolved.

Variable byId : gmap string ModuleDef.

Lemma resolveWithDeps_Inv ids :
  exists st, Inv byId ∅ st /\ out st = resolveWithDeps ids byId
             /\ forall x, x ∈ ids -> x ∈ visited st.
Proof.
  pose proof (resolveWithDeps_fuel_enough byId (S (size byId)) ids (Nat.lt_succ_diag_r _)) as H.
  unfold resolveWithDeps_fuel in H.
  destruct (forEach _ _ _) as [st|] eqn:E; [|done].
  injection H as H. exists st.
  destruct (forEach_dfs_Inv byId _ _ _ E) as [? ?]. done.
Qed.

Lemma resolveWithDeps_NoDup ids : NoDup (resolveWithDeps ids byId).
Proof.
  destruct (resolveWithDeps_Inv ids) as (st & Hinv & <- & _).
  apply (inv_nodup _ _ _ Hinv).
Qed.

(** Only keys of the index are appended. *)
Lemma resolveWithDeps_known ids x :
  x ∈ resolveWithDeps ids byId -> is_Some (byId !! x).
Proof.
  destruct (resolveWithDeps_Inv ids) as (st & Hinv & <- & _).
  intros Hx. by destruct (inv_out _ _ _ Hinv x Hx) as (_ & _ & ?).
Qed.

Lemma resolveWithDeps_closed ids s d :
  s ∈ ids -> rtc (requiresEdge byId) s d -> is_Some (byId !! d) ->
  d ∈ resolveWithDeps ids byId.
Proof.
  destruct (resolveWithDeps_Inv ids) as (st & Hinv & <- & Hsel).
  intros Hs Hpath Hd. specialize (Hsel s Hs). clear Hs.
  induction Hpath as [x|x y z (md & Hx & Hy) _ IH].
  - destruct (inv_visited _ _ _ Hinv x Hsel) as [?|[?|Hnone]]; [done|set_solver|].
    rewrite Hnone in Hd. by destruct Hd.
  - apply IH; [|done].
    destruct (inv_visited _ _ _ Hinv x Hsel) as [Hout|[?|Hnone]];
      [|set_solver|congruence].
    by destruct (inv_deps _ _ _ Hinv x md y Hout Hx Hy) as [? _].
Qed.

Lemma resolveWithDeps_order ids m md d :
  m ∈ resolveWithDeps ids byId -> byId !! m = Some md -> d ∈ requiresOf md ->
  d ∈ resolveWithDeps ids byId ->
  ~ tc (requiresEdge byId) d m ->
  before (resolveWithDeps ids byId) d m.
Proof.
  intros Hm Hmd Hdm Hd Hacyc.
  pose proof (resolveWithDeps_known _ _ Hd) as [md' Hd'].
  destruct (resolveWithDeps_Inv ids) as (st & Hinv & Hout & _).
  rewrite <- Hout in *.
  destruct (inv_deps _ _ _ Hinv m md d Hm Hmd Hdm) as [_ [?|[?|?]]];
    [done|congruence|done].
Qed.

End Resolved.

(** ** The de-duplication pass *)

(** The set [s] always holds exactly the elements of [r]. *)
Lemma uniqueLoop_set ids : forall s r,
  (forall x, x ∈ s <-> x ∈ r) ->
  forall x, x ∈ fst (uniqueLoop (s, r) ids) <-> x ∈ snd (uniqueLoop (s, r) ids).
Proof.
  induction ids as [|y ids IH]; intros s r Hsr; simpl; [done|].
  case_decide; apply IH; [done|].
  intros x. rewrite elem_of_union, elem_of_singleton, elem_of_app,
    list_elem_of_singleton, Hsr. tauto.
Qed.

Lemma uniqueLoop_elems ids : forall s r,
  (forall x, x ∈ s <-> x ∈ r) ->
  forall x, x ∈ snd (uniqueLoop (s, r) ids) <-> x ∈ r \/ x ∈ ids.
Proof.
  induction ids as [|y ids IH]; intros s r Hsr x; simpl.
  - rewrite elem_of_nil. tauto.
  - rewrite elem_of_cons. case_decide as Hy.
    + rewrite (IH s r Hsr). apply Hsr in Hy. split; [tauto|].
      intros [?|[->|?]]; tauto.
    + rewrite IH.
      * rewrite elem_of_app, list_elem_of_singleton. tauto.
      * intros z. rewrite elem_of_union, elem_of_singleton, elem_of_app,
          list_elem_of_singleton, Hsr. tauto.
Qed.

Lemma uniqueKeepOrder_snoc l x :
  uniqueKeepOrder (l ++ [x])
  = if decide (x ∈ l) then uniqueKeepOrder l else uniqueKeepOrder l ++ [x].
Proof.
  pose proof (uniqueLoop_set l ∅ []) as Hset.
  pose proof (uniqueLoop_elems l ∅ []) as Helems.
  unfold uniqueKeepOrder, uniqueLoop in *. rewrite fold_left_app. simpl.
  destruct (fold_left _ l (∅, [])) as [s r]. simpl in *.
  assert (x ∈ s <-> x ∈ l) as Hx.
  { rewrite Hset, Helems; [|set_solver..]. rewrite elem_of_nil. tauto. }
  repeat case_decide; simpl; tauto.
Qed.

Lemma uniqueKeepOrder_nil : uniqueKeepOrder [] = [].
Proof. reflexivity. Qed.

Lemma uniqueKeepOrder_elem l x : x ∈ uniqueKeepOrder l <-> x ∈ l.
Proof.
  induction l as [|y l IH] using rev_ind; [done|].
  rewrite uniqueKeepOrder_snoc. case_decide as Hy.
  - rewrite IH, elem_of_app, list_elem_of_singleton. split; [tauto|].
    intros [?| ->]; done.
  - by rewrite !elem_of_app, IH.
Qed.

Lemma uniqueKeepOrder_NoDup l : NoDup (uniqueKeepOrder l).
Proof.
  induction l as [|y l IH] using rev_ind; [constructor|].
  rewrite uniqueKeepOrder_snoc. case_decide as Hy; [done|].
  apply NoDup_app. split_and!; [done| |apply NoDup_singleton].
  intros x Hx ->%list_elem_of_singleton. apply Hy. by apply uniqueKeepOrder_elem.
Qed.

(** On a list without repetition the pass changes nothing. *)
Lemma uniqueKeepOrder_id l : NoDup l -> uniqueKeepOrder l = l.
Proof.
  induction l as [|y l IH] using rev_ind; [done|].
  intros [Hl [Hy _]]%NoDup_app. rewrite uniqueKeepOrder_snoc.
  case_decide as Hin.
  - exfalso. apply (Hy y Hin). by apply list_elem_of_singleton.
  - by rewrite IH.
Qed.

Lemma keepFirst_elem l x : x ∈ keepFirst l <-> x ∈ l.
Proof.
  induction l as [|y l IH]; simpl; [done|].
  rewrite !elem_of_cons, list_elem_of_filter, IH.
  destruct (decide (x = y)); tauto.
Qed.

Lemma keepFirst_snoc l x :
  keepFirst (l ++ [x]) = if decide (x ∈ l) then keepFirst l else keepFirst l ++ [x].
Proof.
  induction l as [|y l IH]; [reflexivity|].
  cbn [app keepFirst]. rewrite IH.
  destruct (decide (x ∈ l)) as [Hin|Hnin];
    destruct (decide (x ∈ y :: l)) as [Hin'|Hnin']; try set_solver.
  - apply elem_of_cons in Hin' as [->|?]; [|done].
    by rewrite filter_app, filter_cons_False, filter_nil, app_nil_r by auto.
  - assert (x <> y) by set_solver.
    by rewrite filter_app, filter_cons_True, filter_nil by auto.
Qed.

(** The loop of the source computes the specification's reading. *)
Lemma uniqueKeepOrder_keepFirst l : uniqueKeepOrder l = keepFirst l.
Proof.
  induction l as [|y l IH] using rev_ind; [done|].
  by rewrite uniqueKeepOrder_snoc, keepFirst_snoc, IH.
Qed.

Lemma orderedIds_resolved byId input :
  orderedIds byId input = resolveWithDeps (selectedIds input) byId.
Proof. apply uniqueKeepOrder_id, resolveWithDeps_NoDup. Qed.

(** A result of [generateScript] carries the constant [ordered]. *)
Lemma generateScriptFrom_includedIds byId input res :
  generateScriptFrom byId input = Some res ->
  includedIds res = orderedIds byId input.
Proof.
  unfold generateScriptFrom.
  destruct (assembleBlocks byId input (orderedIds byId input)); [|done].
  by intros [= <-].
Qed.

Lemma includedIds_resolved byId input res :
  generateScriptFrom byId input = Some res ->
  includedIds res = resolveWithDeps (selectedIds input) byId.
Proof.
  intros H. rewrite (generateScriptFrom_includedIds _ _ _ H).
  apply orderedIds_resolved.
Qed.

(** ** Order, closure, termination, de-duplication *)

Lemma occurrences_absent x l : x ∉ l -> occurrences x l = 0.
Proof.
  unfold occurrences. induction l as [|y l IH]; intros Hx; [done|].
  apply not_elem_of_cons in Hx as [Hne Hx].
  rewrite filter_cons_False by (intros ->; done). auto.
Qed.

Lemma occurrences_NoDup x l : NoDup l -> x ∈ l -> occurrences x l = 1.
Proof.
  induction 1 as [|y l Hy Hl IH]; intros Hx.
  - by apply elem_of_nil in Hx.
  - unfold occurrences in *. apply elem_of_cons in Hx as [->|Hx].
    + rewrite filter_cons_True by done. simpl. f_equal.
      by apply occurrences_absent.
    + rewrite filter_cons_False; [auto|]. intros ->. done.
Qed.

Lemma tc_requiresEdge_source byId x y :
  tc (requiresEdge byId) x y ->
  exists md z, byId !! x = Some md /\ z ∈ requiresOf md
               /\ (z = y \/ tc (requiresEdge byId) z y).
Proof.
  intros H. inversion H as [? ? (md & Hx & Hin)|? z ? (md & Hx & Hin) Hrest]; subst.
  - exists md, y. auto.
  - exists md, z. auto.
Qed.

(** C1, as amended.  In the list [ordered] that [generateScript] computes,
    which is the list of included ids of every result, a requirement [d]
    of an included module [m] that is itself included stands strictly
    before [m] (and never after it), provided [d] does not in turn require
    [m] through a chain of requires, that is, provided [m] and [d] do not
    lie on a cycle of the registry. *)
Theorem topological_order_outside_cycles byId input m md d :
  m ∈ orderedIds byId input ->
  byId !! m = Some md ->
  d ∈ requiresOf md ->
  d ∈ orderedIds byId input ->
  ~ tc (requiresEdge byId) d m ->
  (before (orderedIds byId input) d m
   /\ ~ before (orderedIds byId input) m d)
  /\ (forall res, generateScriptFrom byId input = Some res ->
        includedIds res = orderedIds byId input
        /\ before (includedIds res) d m
        /\ ~ before (includedIds res) m d).
Proof.
  intros Hm Hmd Hdm Hd Hacyc.
  assert (before (orderedIds byId input) d m
          /\ ~ before (orderedIds byId input) m d) as Hord.
  { rewrite orderedIds_resolved in *.
    assert (before (resolveWithDeps (selectedIds input) byId) d m) as Hb
      by eauto using resolveWithDeps_order.
    split; [done|].
    apply before_NoDup_asym; [apply resolveWithDeps_NoDup|done]. }
  split; [exact Hord|].
  intros res Hres. by rewrite (generateScriptFrom_includedIds _ _ _ Hres).
Qed.

(** When the requires relation of the index has no cycle, the order is
    topological without any proviso. *)
Corollary topological_order_acyclic byId input m md d :
  (forall x, ~ tc (requiresEdge byId) x x) ->
  m ∈ orderedIds byId input ->
  byId !! m = Some md ->
  d ∈ requiresOf md ->
  d ∈ orderedIds byId input ->
  before (orderedIds byId input) d m.
Proof.
  rewrite orderedIds_resolved. intros Hacyc Hm Hmd Hdm Hd.
  eapply resolveWithDeps_order; eauto.
  intros Hpath. apply (Hacyc d). eapply tc_r; [exact Hpath|]. by exists md.
Qed.

(** The shipped registry: [base.homebrew] stands before [dev.git], which
    requires it. *)
Lemma topological_order_outside_cycles_witness :
  (before (orderedIds mapById (select mac ["dev.git_config"]))
     "base.homebrew" "dev.git"
   /\ ~ before (orderedIds mapById (select mac ["dev.git_config"]))
        "dev.git" "base.homebrew")
  /\ (forall res,
        generateScriptFrom mapById (select mac ["dev.git_config"]) = Some res ->
        includedIds res = orderedIds mapById (select mac ["dev.git_config"])
        /\ before (includedIds res) "base.homebrew" "dev.git"
        /\ ~ before (includedIds res) "dev.git" "base.homebrew").
Proof.
  destruct (mapById !! "dev.git") as [md|] eqn:Hmd; [|by vm_compute in Hmd].
  apply (topological_order_outside_cycles mapById
           (select mac ["dev.git_config"]) "dev.git" md "base.homebrew").
  - vm_compute. repeat constructor.
  - exact Hmd.
  - vm_compute in Hmd. injection Hmd as <-. vm_compute. repeat constructor.
  - vm_compute. repeat constructor.
  - intros H.
    apply tc_requiresEdge_source in H as (m1 & z & H1 & Hz & Hrest).
    vm_compute in H1. injection H1 as <-.
    apply list_elem_of_singleton in Hz as ->.
    destruct Hrest as [Heq|Hrest]; [discriminate Heq|].
    apply tc_requiresEdge_source in Hrest as (m2 & z & H2 & Hz & _).
    vm_compute in H2. injection H2 as <-.
    by apply elem_of_nil in Hz.
Defined.

(** C1 as stated fails on a cycle: with A requiring B and B requiring A,
    selecting A yields [B; A]; B requires A and both are included, yet A
    does not stand before B. *)
Lemma topological_order_fails_on_cycle :
  (includedIds <$> generateScriptFrom cycleIndex (select mac ["A"]))
  = Some ["B"; "A"]
  /\ cycleIndex !! "B" = Some cycleB
  /\ "A" ∈ requiresOf cycleB
  /\ ~ before ["B"; "A"] "A" "B".
Proof.
  split_and!; [by vm_compute|by vm_compute|vm_compute; repeat constructor|].
  intros (i & j & Hi & Hj & Hlt).
  destruct i as [|[|i]]; destruct j as [|[|j]]; simpl in *;
    try discriminate; lia.
Qed.

(** C2, as amended.  Every id that an id of the selection requires through
    a chain of requires, and that is itself a key of the index, is in the
    list [ordered] that [generateScript] computes, and so in the included
    ids of every result. *)
Theorem dependency_closure_of_known_ids byId input s d :
  s ∈ selectedIds input ->
  tc (requiresEdge byId) s d ->
  is_Some (byId !! d) ->
  d ∈ orderedIds byId input
  /\ (forall res, generateScriptFrom byId input = Some res ->
        includedIds res = orderedIds byId input /\ d ∈ includedIds res).
Proof.
  intros Hs Hpath Hd.
  assert (d ∈ orderedIds byId input) as Hin.
  { rewrite orderedIds_resolved.
    eapply resolveWithDeps_closed; eauto using tc_rtc. }
  split; [exact Hin|].
  intros res Hres. by rewrite (generateScriptFrom_includedIds _ _ _ Hres).
Qed.

(** The shipped registry: [base.clt] is two requires away from
    [dev.git]. *)
Lemma dependency_closure_of_known_ids_witness :
  "base.clt" ∈ orderedIds mapById (select ubuntu ["dev.git"])
  /\ (forall res,
        generateScriptFrom mapById (select ubuntu ["dev.git"]) = Some res ->
        includedIds res = orderedIds mapById (select ubuntu ["dev.git"])
        /\ "base.clt" ∈ includedIds res).
Proof.
  apply (dependency_closure_of_known_ids mapById (select ubuntu ["dev.git"])
           "dev.git" "base.clt").
  - repeat constructor.
  - apply (tc_l _ _ "base.homebrew").
    + eexists. split; [by vm_compute|]. vm_compute. repeat constructor.
    + apply tc_once.
      eexists. split; [by vm_compute|]. vm_compute. repeat constructor.
  - vm_compute. eexists. reflexivity.
Defined.

(** A selected id is included as soon as it is a key of the index. *)
Lemma selected_known_included byId input s :
  s ∈ selectedIds input -> is_Some (byId !! s) ->
  s ∈ orderedIds byId input.
Proof.
  rewrite orderedIds_resolved. intros Hs Hd.
  by eapply resolveWithDeps_closed.
Qed.

(** C2 as stated fails on a requirement that is not a key of the index:
    A requires [ghost], A is selected, and [ghost] is not included. *)
Lemma dependency_closure_fails_on_unknown_id :
  "A" ∈ selectedIds (select mac ["A"])
  /\ tc (requiresEdge danglingIndex) "A" "ghost"
  /\ (includedIds <$> generateScriptFrom danglingIndex (select mac ["A"]))
     = Some ["A"]
  /\ "ghost" ∉ ["A"].
Proof.
  split_and!.
  - repeat constructor.
  - apply tc_once. exists dangling. split; [by vm_compute|].
    vm_compute. repeat constructor.
  - by vm_compute.
  - intros [Heq|H]%elem_of_cons; [discriminate Heq|by apply elem_of_nil in H].
Qed.

(** C3.  [resolveWithDeps] returns on every input: a recursion depth above
    the number of keys of the index is never exhausted, with or without
    cycles, and every such bound gives the same list.  When A requires B
    and B requires A, a selection that holds A yields a list in which A
    and B each occur exactly once. *)
Theorem cycle_safety byId ids :
  (forall fuel, size byId < fuel ->
     resolveWithDeps_fuel fuel ids byId = Some (resolveWithDeps ids byId))
  /\ (forall a b ma mb,
        byId !! a = Some ma -> b ∈ requiresOf ma ->
        byId !! b = Some mb -> a ∈ requiresOf mb ->
        a ∈ ids ->
        occurrences a (resolveWithDeps ids byId) = 1
        /\ occurrences b (resolveWithDeps ids byId) = 1).
Proof.
  split; [intros fuel; apply resolveWithDeps_fuel_enough|].
  intros a b ma mb Ha Hab Hb Hba Hsel.
  split; apply occurrences_NoDup; try apply resolveWithDeps_NoDup.
  - eapply resolveWithDeps_closed; eauto using rtc_refl.
  - eapply resolveWithDeps_closed; eauto.
    apply rtc_once. by exists ma.
Qed.

Lemma cycle_safety_witness :
  resolveWithDeps_fuel 3 ["A"] cycleIndex = Some (resolveWithDeps ["A"] cycleIndex)
  /\ occurrences "A" (resolveWithDeps ["A"] cycleIndex) = 1
  /\ occurrences "B" (resolveWithDeps ["A"] cycleIndex) = 1.
Proof.
  destruct (cycle_safety cycleIndex ["A"]) as [Hfuel Hcycle].
  split.
  - apply Hfuel. vm_compute. lia.
  - apply (Hcycle "A" "B" cycleA cycleB).
    + by vm_compute.
    + vm_compute. repeat constructor.
    + by vm_compute.
    + vm_compute. repeat constructor.
    + repeat constructor.
Defined.

(** C4.  The list of included ids never repeats an id: the list
    [ordered] that [generateScript] computes has no repetition, and it is
    the list of included ids of every result.  On an arbitrary list,
    [uniqueKeepOrder] returns a list without repetition that has the same
    elements, equal to the list of first occurrences in first-seen order;
    extending the input by one element appends that element exactly when
    it was not seen before; running the pass twice is the same as running
    it once. *)
Theorem dedup_keeps_first_occurrences :
  (forall byId input,
     NoDup (orderedIds byId input)
     /\ (forall res, generateScriptFrom byId input = Some res ->
           includedIds res = orderedIds byId input
           /\ NoDup (includedIds res)))
  /\ (forall l,
        NoDup (uniqueKeepOrder l)
        /\ (forall x, x ∈ uniqueKeepOrder l <-> x ∈ l)
        /\ uniqueKeepOrder l = keepFirst l
        /\ uniqueKeepOrder (uniqueKeepOrder l) = uniqueKeepOrder l)
  /\ (forall l x,
        uniqueKeepOrder (l ++ [x])
        = if decide (x ∈ l) then uniqueKeepOrder l else uniqueKeepOrder l ++ [x]).
Proof.
  split_and!.
  - intros byId input. split; [apply uniqueKeepOrder_NoDup|].
    intros res Hres. rewrite (generateScriptFrom_includedIds _ _ _ Hres).
    split; [done|apply uniqueKeepOrder_NoDup].
  - intros l. split_and!.
    + apply uniqueKeepOrder_NoDup.
    + intros x. apply uniqueKeepOrder_elem.
    + apply uniqueKeepOrder_keepFirst.
    + apply uniqueKeepOrder_id, uniqueKeepOrder_NoDup.
  - apply uniqueKeepOrder_snoc.
Qed.

(** ** References to ids that are not in the index *)

Section Tolerance.

Variable u : string.

Lemma agree_refl st : agree u st st.
Proof. by split. Qed.

Lemma agree_sym st st' : agree u st st' -> agree u st' st.
Proof. intros [? H]. split; [done|]. intros x Hx. by rewrite H. Qed.

Lemma agree_trans st1 st2 st3 : agree u st1 st2 -> agree u st2 st3 -> agree u st1 st3.
Proof.
  intros [? H] [? H']. split; [congruence|]. intros x Hx. by rewrite H, H'.
Qed.

(** A call on an id that is not a key only marks it: nothing is appended
    and no call is made on behalf of it. *)
Lemma dfs_unknown_id idx fuel st :
  idx !! u = None ->
  dfs (S fuel) idx u st
  = Some (if decide (u ∈ visited st) then st
          else {| visited := {[u]} ∪ visited st; out := out st |}).
Proof. intros H. simpl. case_decide; [done|]. by rewrite H. Qed.

Lemma dfs_unknown_agree idx fuel st st' :
  idx !! u = None -> dfs fuel idx u st = Some st' -> agree u st' st.
Proof.
  intros Hidx H. destruct fuel as [|fuel]; [done|].
  rewrite dfs_unknown_id in H by done. injection H as <-.
  case_decide; [apply agree_refl|]. split; [done|]. simpl. set_solver.
Qed.

Variables byId byId' : gmap string ModuleDef.
Hypothesis unknown : byId !! u = None.
Hypothesis related : sameIndexBut u byId byId'.

Lemma unknown' : byId' !! u = None.
Proof. pose proof (related u) as H. rewrite unknown in H. by inversion H. Qed.

Lemma forEach_agree fuel :
  (forall id st1 st2 st1', agree u st1 st2 ->
     dfs fuel byId id st1 = Some st1' ->
     exists st2', dfs fuel byId' id st2 = Some st2' /\ agree u st1' st2') ->
  forall l l', erases u l l' ->
  forall st1 st2 st1', agree u st1 st2 ->
    forEach (dfs fuel byId) l st1 = Some st1' ->
    exists st2', forEach (dfs fuel byId') l' st2 = Some st2' /\ agree u st1' st2'.
Proof.
  intros Hdfs l l' Hl.
  induction Hl as [|x l l' Hl IH|l l' Hl IH]; intros st1 st2 st1' Hag H;
    simpl in H.
  - injection H as <-. by exists st2.
  - destruct (dfs fuel byId x st1) as [s1|] eqn:E; [|done].
    destruct (Hdfs _ _ _ _ Hag E) as (s2 & E2 & Hag2).
    simpl. rewrite E2. eauto.
  - destruct (dfs fuel byId u st1) as [s1|] eqn:E; [|done].
    apply (IH s1); [|done].
    eapply agree_trans; [|exact Hag].
    eapply dfs_unknown_agree; eauto.
Qed.

Lemma dfs_agree fuel : forall id st1 st2 st1',
  agree u st1 st2 ->
  dfs fuel byId id st1 = Some st1' ->
  exists st2', dfs fuel byId' id st2 = Some st2' /\ agree u st1' st2'.
Proof.
  induction fuel as [|fuel IH]; intros id st1 st2 st1' Hag H; [done|].
  destruct (decide (id = u)) as [->|Hne].
  - rewrite (dfs_unknown_id byId') by apply unknown'.
    eexists. split; [done|].
    apply dfs_unknown_agree in H; [|done].
    eapply agree_trans; [exact H|]. eapply agree_trans; [exact Hag|].
    apply agree_sym. eapply (dfs_unknown_agree byId' (S fuel));
      [apply unknown'|by apply dfs_unknown_id, unknown'].
  - simpl in H. simpl. destruct Hag as [Hout Hvis].
    destruct (decide (id ∈ visited st1)) as [Hv|Hv].
    + injection H as <-. rewrite decide_True by (by apply Hvis).
      by eexists.
    + rewrite decide_False by (by rewrite <- Hvis).
      assert (agree u {| visited := {[id]} ∪ visited st1; out := out st1 |}
                    {| visited := {[id]} ∪ visited st2; out := out st2 |}) as Hag1.
      { split; [done|]. simpl. intros x Hx.
        rewrite !elem_of_union, (Hvis x Hx). done. }
      destruct (related id) as [md md' (_ & _ & _ & Hreq)|]; [|by injection H as <-; eauto].
      destruct (forEach (dfs fuel byId) _ _) as [s1|] eqn:E; [|done].
      injection H as <-.
      destruct (forEach_agree fuel IH _ _ Hreq _ _ _ Hag1 E) as (s2 & -> & [Ho Hv2]).
      eexists. split; [done|]. split; simpl; [by rewrite Ho|done].
Qed.

Lemma resolveWithDeps_fuel_agree fuel ids ids' o :
  erases u ids ids' ->
  resolveWithDeps_fuel fuel ids byId = Some o ->
  resolveWithDeps_fuel fuel ids' byId' = Some o.
Proof.
  unfold resolveWithDeps_fuel. intros Hids H.
  destruct (forEach (dfs fuel byId) _ _) as [st|] eqn:E; [|done].
  injection H as <-.
  destruct (forEach_agree fuel (dfs_agree fuel) _ _ Hids _ initial _ (agree_refl _) E)
    as (st' & E' & [Ho _]).
  rewrite E'. simpl. by rewrite Ho.
Qed.

Lemma resolveWithDeps_agree ids ids' :
  erases u ids ids' ->
  resolveWithDeps ids' byId' = resolveWithDeps ids byId.
Proof.
  intros Hids.
  pose (fuel := S (size byId `max` size byId')).
  pose proof (resolveWithDeps_fuel_enough byId fuel ids ltac:(unfold fuel; lia)) as H.
  apply (resolveWithDeps_fuel_agree _ _ ids' _ Hids) in H.
  rewrite (resolveWithDeps_fuel_enough byId' fuel ids') in H by (unfold fuel; lia).
  by injection H.
Qed.

Lemma emitModule_agree input input' id blocks :
  os input' = os input -> vars input' = vars input ->
  emitModule byId' input' id blocks = emitModule byId input id blocks.
Proof.
  intros Hos Hvars. unfold emitModule. rewrite Hos, Hvars.
  destruct (related id) as [md md' (Hid & Hname & Hscript & _)|]; [|done].
  unfold skipNotice, banner. by rewrite Hid, Hname, Hscript.
Qed.

Lemma assembleBlocks_agree input input' ordered :
  os input' = os input -> vars input' = vars input ->
  assembleBlocks byId' input' ordered = assembleBlocks byId input ordered.
Proof.
  intros Hos Hvars. unfold assembleBlocks. rewrite Hos.
  assert (forall acc, forEach (emitModule byId' input') ordered acc
                      = forEach (emitModule byId input) ordered acc) as ->; [|done].
  induction ordered as [|x xs IH]; intros acc; simpl; [done|].
  rewrite (emitModule_agree input input') by done.
  destruct (emitModule byId input x acc); [apply IH|done].
Qed.

End Tolerance.

Lemma erases_filter u l : erases u l (filter (fun x => x <> u) l).
Proof.
  induction l as [|x l IH]; [constructor|].
  destruct (decide (x = u)) as [->|Hne].
  - rewrite filter_cons_False by auto. by constructor.
  - rewrite filter_cons_True by auto. by constructor.
Qed.

Lemma sameIndexBut_withoutRequire u byId :
  sameIndexBut u byId (withoutRequire u <$> byId).
Proof.
  intros k. rewrite lookup_fmap. destruct (byId !! k) as [m|]; constructor.
  unfold sameModuleBut, withoutRequire, requiresOf; simpl. split_and!; try done.
  destruct (requires m) as [l|]; simpl; [apply erases_filter|constructor].
Qed.

(** C5.  An id [u] that is not a key of the index is never included
    (it is not in the list [ordered], which is the list of included ids of
    every result), a call of [dfs] on it appends nothing, and the whole
    outcome of [generateScript] (script text and included ids, or the
    exception) is unchanged when occurrences of [u] are removed from the
    selection and from the requires lists of the index. *)
Theorem unknown_reference_tolerance u byId byId' input input' :
  byId !! u = None ->
  sameIndexBut u byId byId' ->
  os input' = os input ->
  vars input' = vars input ->
  erases u (selectedIds input) (selectedIds input') ->
  (u ∉ orderedIds byId input)
  /\ (forall res, generateScriptFrom byId input = Some res ->
        u ∉ includedIds res)
  /\ (forall fuel st st', dfs fuel byId u st = Some st' -> out st' = out st)
  /\ generateScriptFrom byId' input' = generateScriptFrom byId input.
Proof.
  intros Hu Hidx Hos Hvars Hsel.
  assert (u ∉ orderedIds byId input) as Hnot.
  { rewrite orderedIds_resolved. intros Hin.
    apply resolveWithDeps_known in Hin as [? ?]. congruence. }
  split_and!.
  - exact Hnot.
  - intros res Hres. by rewrite (generateScriptFrom_includedIds _ _ _ Hres).
  - intros fuel st st' H. by apply (dfs_unknown_agree u byId) in H as [? _].
  - unfold generateScriptFrom, orderedIds.
    rewrite (resolveWithDeps_agree u byId byId' Hu Hidx _ _ Hsel).
    by rewrite (assembleBlocks_agree u byId byId' Hidx _ _ _ Hos Hvars).
Qed.

Lemma unknown_reference_tolerance_witness :
  ("ghost" ∉ orderedIds danglingIndex (select mac ["ghost"; "A"]))
  /\ (forall res,
        generateScriptFrom danglingIndex (select mac ["ghost"; "A"]) = Some res ->
        "ghost" ∉ includedIds res)
  /\ (forall fuel st st',
        dfs fuel danglingIndex "ghost" st = Some st' -> out st' = out st)
  /\ generateScriptFrom (withoutRequire "ghost" <$> danglingIndex) (select mac ["A"])
     = generateScriptFrom danglingIndex (select mac ["ghost"; "A"]).
Proof.
  apply (unknown_reference_tolerance "ghost" danglingIndex
           (withoutRequire "ghost" <$> danglingIndex)
           (select mac ["ghost"; "A"]) (select mac ["A"])).
  - by vm_compute.
  - apply sameIndexBut_withoutRequire.
  - reflexivity.
  - reflexivity.
  - simpl. repeat constructor.
Defined.

(** ** Escaping *)

(** [String.append] does not unfold under [simpl]; these are its two
    equations. *)
Lemma append_cons x (a b : string) : String x a +:+ b = String x (a +:+ b).
Proof. reflexivity. Qed.

Lemma append_nil_l (a : string) : EmptyString +:+ a = a.
Proof. reflexivity. Qed.

Lemma append_assoc (a b c : string) : (a +:+ b) +:+ c = a +:+ (b +:+ c).
Proof.
  induction a as [|x a IH]; [done|]. by rewrite !append_cons, IH.
Qed.

Lemma append_nil_r (a : string) : a +:+ EmptyString = a.
Proof.
  induction a as [|x a IH]; [done|]. by rewrite append_cons, IH.
Qed.

Lemma length_append (a b : string) :
  String.length (a +:+ b) = String.length a + String.length b.
Proof.
  induction a as [|x a IH]; [done|]. rewrite append_cons. simpl. by rewrite IH.
Qed.

Lemma replaceAll_app c rep s1 s2 :
  replaceAll c rep (s1 +:+ s2) = replaceAll c rep s1 +:+ replaceAll c rep s2.
Proof.
  induction s1 as [|x s1 IH]; [done|].
  rewrite append_cons. simpl. rewrite IH.
  destruct (Ascii.eqb x c); by rewrite ?append_assoc, ?append_cons.
Qed.

Lemma escapeChar_steps x :
  replaceAll backtick "\`"
    (replaceAll dollar "\$"
      (replaceAll dquote ("\" +:+ dq)
        (replaceAll backslash "\\" (String x EmptyString))))
  = escapeChar x.
Proof.
  unfold escapeChar. simpl.
  destruct (Ascii.eqb_spec x backslash) as [->|H1]; [reflexivity|]. simpl.
  destruct (Ascii.eqb_spec x dquote) as [->|H2]; [reflexivity|]. simpl.
  destruct (Ascii.eqb_spec x dollar) as [->|H3]; [reflexivity|]. simpl.
  destruct (Ascii.eqb_spec x backtick) as [->|H4]; reflexivity.
Qed.

Lemma escapeForDoubleQuotes_each v : escapeForDoubleQuotes v = escapeEach v.
Proof.
  induction v as [|x v IH]; [reflexivity|].
  change (String x v) with (String x EmptyString +:+ v).
  unfold escapeForDoubleQuotes in *. cbv zeta in *. rewrite !replaceAll_app, IH.
  by rewrite escapeChar_steps.
Qed.

Lemma escapeChar_special x :
  escapeChar x
  = if shellSpecial x then String backslash (String x EmptyString)
    else String x EmptyString.
Proof.
  unfold escapeChar, shellSpecial.
  destruct (Ascii.eqb_spec x backslash) as [->|H1]; [reflexivity|]. simpl.
  destruct (Ascii.eqb_spec x dquote) as [->|H2]; [reflexivity|]. simpl.
  destruct (Ascii.eqb_spec x dollar) as [->|H3]; [reflexivity|]. simpl.
  destruct (Ascii.eqb_spec x backtick) as [->|H4]; reflexivity.
Qed.

Lemma shellReads_escapeEach v : shellReads (escapeEach v) = Some v.
Proof.
  induction v as [|x v IH]; [reflexivity|].
  simpl escapeEach. rewrite escapeChar_special.
  destruct (shellSpecial x) eqn:Hx.
  - rewrite !append_cons, append_nil_l. simpl. by rewrite Hx, IH.
  - assert (Ascii.eqb x backslash = false) as Hb.
    { unfold shellSpecial in Hx. by destruct (Ascii.eqb x backslash). }
    rewrite append_cons, append_nil_l. simpl. by rewrite Hb, Hx, IH.
Qed.

(** The order of the replacements matters: with the backslash replaced
    last, the backslash that escapes a double quote is escaped again. *)
Example backslash_last_escapes_twice :
  replaceAll backslash "\\" (replaceAll dquote ("\" +:+ dq) dq)
  = "\\" +:+ dq
  /\ escapeForDoubleQuotes dq = "\" +:+ dq.
Proof. by vm_compute. Qed.

(** C8.  [escapeForDoubleQuotes] is the composition of four global
    replacements, backslash first, then double quote, dollar sign and
    backtick; the result escapes every character of the input exactly once
    (no backslash introduced by a later replacement is escaped again); and
    a shell that reads the result between double quotes obtains the
    original characters, none of them acting as a metacharacter. *)
Theorem escaping_correct v :
  escapeForDoubleQuotes v
  = replaceAll backtick "\`"
      (replaceAll dollar "\$"
        (replaceAll dquote ("\" +:+ dq)
          (replaceAll backslash "\\" v)))
  /\ escapeForDoubleQuotes v = escapeEach v
  /\ shellReads (escapeForDoubleQuotes v) = Some v.
Proof.
  split_and!; [reflexivity|apply escapeForDoubleQuotes_each|].
  rewrite escapeForDoubleQuotes_each. apply shellReads_escapeEach.
Qed.

(** ** Substitution *)

(** *** Reading a variable *)

Lemma getProperty_own vars k v : vars !! k = Some v -> getProperty vars k = OwnString v.
Proof. unfold getProperty. by intros ->. Qed.

Lemma getProperty_Undefined vars k :
  getProperty vars k = Undefined
  <-> vars !! k = None /\ k ∉ OBJECT_PROTOTYPE_KEYS.
Proof.
  unfold getProperty. destruct (vars !! k); [naive_solver|].
  case_bool_decide; naive_solver.
Qed.

Lemma getProperty_Inherited vars k :
  getProperty vars k = Inherited
  <-> vars !! k = None /\ k ∈ OBJECT_PROTOTYPE_KEYS.
Proof.
  unfold getProperty. destruct (vars !! k); [naive_solver|].
  case_bool_decide; naive_solver.
Qed.

Lemma not_inherited k :
  bool_decide (k ∈ OBJECT_PROTOTYPE_KEYS) = false -> k ∉ OBJECT_PROTOTYPE_KEYS.
Proof. apply bool_decide_eq_false_1. Qed.

Lemma escapeForDoubleQuotes_empty : escapeForDoubleQuotes EmptyString = EmptyString.
Proof. reflexivity. Qed.

(** The callback returns the escaped value of the key, the empty string
    standing for a key that is neither an own property nor inherited. *)
Lemma substitute_default vars k :
  (vars !! k = None -> k ∉ OBJECT_PROTOTYPE_KEYS) ->
  substitute vars k
  = Some (escapeForDoubleQuotes (default EmptyString (vars !! k))).
Proof.
  unfold substitute, getProperty. destruct (vars !! k); [done|].
  intros H. by rewrite bool_decide_eq_false_2 by auto.
Qed.

(** The callback raises exactly on an inherited key. *)
Lemma substitute_None vars k :
  substitute vars k = None <-> vars !! k = None /\ k ∈ OBJECT_PROTOTYPE_KEYS.
Proof.
  rewrite <- getProperty_Inherited. unfold substitute.
  by destruct (getProperty vars k).
Qed.

(** *** Unfolding [applyVars] and [tokenKeys] *)

Lemma applyVars_nil vars : applyVars EmptyString vars = Some EmptyString.
Proof. reflexivity. Qed.

Lemma applyVars_match s vars k r :
  matchToken s = Some (k, r) ->
  applyVars s vars
  = match substitute vars k with
    | Some v => (fun t => v +:+ t) <$> applyVars r vars
    | None => None
    end.
Proof.
  intros H. rewrite applyVars_equation_1.
  generalize (inspect (matchToken s)). intros [[[k' r']|] Ho]; [|congruence].
  assert (k' = k /\ r' = r) as [-> ->] by (split; congruence).
  by simp applyVars.
Qed.

Lemma applyVars_copy c s vars :
  matchToken (String c s) = None ->
  applyVars (String c s) vars = String c <$> applyVars s vars.
Proof.
  intros H. rewrite applyVars_equation_1.
  generalize (inspect (matchToken (String c s))).
  intros [[[k' r']|] Ho]; [congruence|].
  by simp applyVars.
Qed.

Lemma tokenKeys_match s k r :
  matchToken s = Some (k, r) -> tokenKeys s = k :: tokenKeys r.
Proof.
  intros H. rewrite tokenKeys_equation_1.
  generalize (inspect (matchToken s)). intros [[[k' r']|] Ho]; [|congruence].
  assert (k' = k /\ r' = r) as [-> ->] by (split; congruence).
  by simp tokenKeys.
Qed.

Lemma tokenKeys_copy c s :
  matchToken (String c s) = None -> tokenKeys (String c s) = tokenKeys s.
Proof.
  intros H. rewrite tokenKeys_equation_1.
  generalize (inspect (matchToken (String c s))).
  intros [[[k' r']|] Ho]; [congruence|].
  by simp tokenKeys.
Qed.

(** *** The pattern *)

Lemma spanIdent_key k r :
  allIdent k = true -> (forall c r', r = String c r' -> isIdentChar c = false) ->
  spanIdent (k +:+ r) = (k, r).
Proof.
  intros Hk Hr. induction k as [|c k IH].
  - rewrite append_nil_l. destruct r as [|c r']; [done|]. simpl.
    by rewrite (Hr c r' eq_refl).
  - simpl in Hk. apply andb_prop in Hk as [Hc Hk].
    rewrite append_cons. simpl. by rewrite Hc, (IH Hk).
Qed.

Lemma matchToken_token k post :
  isKey k = true ->
  matchToken ("{{" +:+ k +:+ "}}" +:+ post) = Some (k, post).
Proof.
  intros Hk. destruct k as [|c k]; [done|].
  unfold matchToken. rewrite !append_cons, append_nil_l. simpl stripPrefix2.
  rewrite <- append_cons.
  rewrite spanIdent_key; [done|done|].
  intros c' r' [= <- _]. reflexivity.
Qed.

(** Text that starts with an opening brace does not extend a run of
    identifier characters. *)
Lemma spanIdent_brace pre t :
  spanIdent (pre +:+ String lbrace t)
  = (fst (spanIdent pre), snd (spanIdent pre) +:+ String lbrace t).
Proof.
  induction pre as [|c pre IH]; [reflexivity|].
  rewrite append_cons. simpl. rewrite IH.
  destruct (isIdentChar c); [|reflexivity].
  by destruct (spanIdent pre).
Qed.

(** A token never straddles the start of a later token: an attempt that
    fails on [pre] alone fails on [pre] followed by two opening braces. *)
Lemma matchToken_before_token c pre t :
  matchToken (String c pre) = None ->
  matchToken (String c pre +:+ String lbrace (String lbrace t)) = None.
Proof.
  unfold matchToken. rewrite append_cons.
  destruct pre as [|c2 pre].
  - rewrite append_nil_l. simpl. intros _.
    destruct (Ascii.eqb c "{" && true); reflexivity.
  - rewrite append_cons. simpl stripPrefix2.
    destruct (Ascii.eqb c "{" && Ascii.eqb c2 "{"); [|done].
    rewrite (spanIdent_brace pre).
    destruct (spanIdent pre) as [[|k1 k] r]; simpl; [done|].
    destruct r as [|x [|y r]].
    + done.
    + intros _. rewrite append_cons, append_nil_l. simpl.
      by rewrite andb_false_r.
    + rewrite !append_cons. simpl.
      by destruct (Ascii.eqb x "}" && Ascii.eqb y "}").
Qed.

Lemma hasToken_cons c s :
  hasToken (String c s) = false ->
  matchToken (String c s) = None /\ hasToken s = false.
Proof. simpl. by destruct (matchToken (String c s)). Qed.

Lemma spanIdent_split s k r :
  spanIdent s = (k, r) -> s = k +:+ r /\ allIdent k = true.
Proof.
  revert k r. induction s as [|c s IH]; intros k r; simpl.
  - by intros [= <- <-].
  - destruct (isIdentChar c) eqn:Hc.
    + destruct (spanIdent s) as [k' r']. intros [= <- <-].
      destruct (IH _ _ eq_refl) as [-> Hk]. simpl. by rewrite Hc, Hk.
    + by intros [= <- <-].
Qed.

Lemma stripPrefix2_Some a b s r :
  stripPrefix2 a b s = Some r -> s = String a (String b r).
Proof.
  destruct s as [|x [|y s]]; simpl; try done.
  destruct (Ascii.eqb_spec x a) as [->|]; [|done].
  destruct (Ascii.eqb_spec y b) as [->|]; [|done]. by intros [= ->].
Qed.

Lemma matchToken_Some s k r :
  matchToken s = Some (k, r) ->
  isKey k = true /\ s = "{{" +:+ k +:+ "}}" +:+ r.
Proof.
  unfold matchToken. intros H.
  destruct (stripPrefix2 _ _ s) as [s1|] eqn:E1; [|done].
  destruct (spanIdent s1) as [[|c k'] r1] eqn:E2; [done|].
  destruct (stripPrefix2 _ _ r1) as [rest|] eqn:E3; [|done].
  injection H as <- <-.
  apply stripPrefix2_Some in E1 as ->. apply stripPrefix2_Some in E3 as ->.
  apply spanIdent_split in E2 as [-> Hk]. done.
Qed.

Lemma matchToken_app s k r t :
  matchToken s = Some (k, r) -> matchToken (s +:+ t) = Some (k, r +:+ t).
Proof.
  intros [Hk ->]%matchToken_Some.
  rewrite !append_assoc. by apply matchToken_token.
Qed.

Lemma hasToken_first s :
  hasToken s = true ->
  exists pre k post,
    s = pre +:+ "{{" +:+ k +:+ "}}" +:+ post
    /\ hasToken pre = false /\ isKey k = true.
Proof.
  induction s as [|c s IH]; [done|]. simpl.
  destruct (matchToken (String c s)) as [[k r]|] eqn:E.
  - intros _. apply matchToken_Some in E as [Hk E].
    exists EmptyString, k, r. by rewrite append_nil_l.
  - intros (pre & k & post & -> & Hpre & Hk)%IH.
    exists (String c pre), k, post. split_and!; [done| |done].
    simpl. destruct (matchToken (String c pre)) as [[k' r']|] eqn:E'; [|done].
    apply (matchToken_app _ _ _ ("{{" +:+ k +:+ "}}" +:+ post)) in E'.
    rewrite append_cons in E'. congruence.
Qed.

Lemma matchToken_shorter s k r :
  matchToken s = Some (k, r) -> String.length r < String.length s.
Proof.
  intros [_ ->]%matchToken_Some. rewrite !length_append. simpl. lia.
Qed.

(** *** The scan *)

(** Induction along the scan: a match hands over to the text after it, a
    copied character to the text after the character. *)
Lemma scan_ind (P : string -> Prop) :
  P EmptyString ->
  (forall s k r, matchToken s = Some (k, r) -> P r -> P s) ->
  (forall c s, matchToken (String c s) = None -> P s -> P (String c s)) ->
  forall s, P s.
Proof.
  intros Hnil Hmatch Hcopy s.
  remember (String.length s) as n eqn:Hn. revert s Hn.
  induction n as [n IH] using lt_wf_ind. intros s ->.
  destruct (matchToken s) as [[k r]|] eqn:E.
  - apply (Hmatch s k r E).
    apply (IH (String.length r)); [by apply (matchToken_shorter s k)|done].
  - destruct s as [|c s]; [done|].
    apply (Hcopy c s E). apply (IH (String.length s)); [simpl; lia|done].
Qed.

Lemma applyVars_no_token s vars : hasToken s = false -> applyVars s vars = Some s.
Proof.
  induction s as [|c s IH]; [done|].
  intros [Hm Hs]%hasToken_cons. by rewrite applyVars_copy, IH.
Qed.

Lemma tokenKeys_no_token s : hasToken s = false -> tokenKeys s = [].
Proof.
  induction s as [|c s IH]; [done|].
  intros [Hm Hs]%hasToken_cons. by rewrite tokenKeys_copy, IH.
Qed.

(** The first token of a template: the text before it is copied, the
    callback is run on its key, and the scan goes on after it. *)
Lemma applyVars_first_token pre k post vars :
  hasToken pre = false -> isKey k = true ->
  applyVars (pre +:+ "{{" +:+ k +:+ "}}" +:+ post) vars
  = match substitute vars k with
    | Some v => (fun t => pre +:+ v +:+ t) <$> applyVars post vars
    | None => None
    end.
Proof.
  intros Hpre Hk. induction pre as [|c pre IH].
  - rewrite !append_nil_l.
    rewrite (applyVars_match _ vars k post) by (by apply matchToken_token).
    destruct (substitute vars k) as [v|]; [|done].
    destruct (applyVars post vars); simpl; [|done]. by rewrite append_nil_l.
  - apply hasToken_cons in Hpre as [Hm Hpre].
    rewrite !(append_cons c). rewrite applyVars_copy.
    + rewrite IH by done. destruct (substitute vars k) as [v|]; [|done].
      destruct (applyVars post vars); simpl; [|done]. by rewrite append_cons.
    + rewrite <- append_cons. by apply (matchToken_before_token c pre).
Qed.

Lemma tokenKeys_first_token pre k post :
  hasToken pre = false -> isKey k = true ->
  tokenKeys (pre +:+ "{{" +:+ k +:+ "}}" +:+ post) = k :: tokenKeys post.
Proof.
  intros Hpre Hk. induction pre as [|c pre IH].
  - rewrite !append_nil_l. by apply tokenKeys_match, matchToken_token.
  - apply hasToken_cons in Hpre as [Hm Hpre].
    rewrite !(append_cons c). rewrite tokenKeys_copy; [by apply IH|].
    rewrite <- append_cons. by apply (matchToken_before_token c pre).
Qed.

(** [applyVars] returns exactly when the callback returns on every key
    that the scan reads. *)
Lemma applyVars_is_Some s vars :
  is_Some (applyVars s vars)
  <-> forall k, k ∈ tokenKeys s -> is_Some (substitute vars k).
Proof.
  induction s as [|s k r E IH|c s E IH] using scan_ind.
  - split; [|by exists EmptyString]. intros _ k Hk.
    change (tokenKeys EmptyString) with (@nil string) in Hk.
    by apply elem_of_nil in Hk.
  - rewrite (applyVars_match s vars k r E), (tokenKeys_match s k r E).
    setoid_rewrite elem_of_cons. split.
    + destruct (substitute vars k) as [v|] eqn:Ev; [|by intros [? ?]].
      rewrite fmap_is_Some, IH. intros Hr k' [->|Hk']; [by rewrite Ev|auto].
    + intros Hall. destruct (Hall k (or_introl eq_refl)) as [v ->].
      rewrite fmap_is_Some, IH. auto.
  - rewrite (applyVars_copy c s vars E), (tokenKeys_copy c s E).
    by rewrite fmap_is_Some.
Qed.

(** [applyVars] raises exactly when the scan reads a key that is not an
    own property of the map and that [Object.prototype] defines. *)
Lemma applyVars_None s vars :
  applyVars s vars = None
  <-> exists k, k ∈ tokenKeys s
                /\ vars !! k = None /\ k ∈ OBJECT_PROTOTYPE_KEYS.
Proof.
  rewrite eq_None_not_Some, applyVars_is_Some. split.
  - intros Hnot.
    destruct (decide (Exists (fun k => substitute vars k = None) (tokenKeys s)))
      as [Hex|Hno].
    + apply Exists_exists in Hex as (k & Hk & Hnone).
      exists k. split; [done|]. by apply substitute_None.
    + exfalso. apply Hnot. intros k Hk.
      destruct (substitute vars k) eqn:E; [by eexists|].
      exfalso. apply Hno, Exists_exists. eauto.
  - intros (k & Hk & Hnone) Hall. apply substitute_None in Hnone.
    destruct (Hall k Hk) as [v Hv]. congruence.
Qed.

(** [applyVars] reads the map only through the callback, on the keys of
    the scan. *)
Lemma applyVars_ext s vars vars' :
  (forall k, k ∈ tokenKeys s -> substitute vars k = substitute vars' k) ->
  applyVars s vars = applyVars s vars'.
Proof.
  induction s as [|s k r E IH|c s E IH] using scan_ind; intros Hsame.
  - done.
  - rewrite !(applyVars_match s _ k r E). rewrite (tokenKeys_match s k r E) in Hsame.
    rewrite <- (Hsame k) by (by left).
    rewrite IH; [done|]. intros k' Hk'. apply Hsame. by right.
  - rewrite !(applyVars_copy c s _ E). rewrite (tokenKeys_copy c s E) in Hsame.
    by rewrite IH.
Qed.

Lemma substitute_insert_Undefined vars k k' :
  getProperty vars k = Undefined ->
  substitute (<[k := EmptyString]> vars) k' = substitute vars k'.
Proof.
  intros [Hnone Hnot]%getProperty_Undefined.
  unfold substitute, getProperty. destruct (decide (k' = k)) as [->|Hne].
  - rewrite lookup_insert_eq, Hnone. by rewrite bool_decide_eq_false_2.
  - by rewrite lookup_insert_ne.
Qed.

(** Scenario 3 of the specification: the quotes of the value are escaped,
    the apostrophe is left alone. *)
Example git_name_substitution :
  applyVars ("git config --global user.name " +:+ dq +:+ "{{git_name}}" +:+ dq)
    {[ "git_name" := "O'Brien " +:+ dq +:+ "Dev" +:+ dq ]}
  = Some ("git config --global user.name " +:+ dq
            +:+ "O'Brien \" +:+ dq +:+ "Dev\" +:+ dq +:+ dq).
Proof. by vm_compute. Qed.

(** C7, as amended.  What [applyVars] returns is fixed by one scan of the
    template from left to right.  A template without token is returned
    unchanged.  Otherwise the text before the first token is copied and,
    when the key of the token is an own entry of the map or is not a name
    that [Object.prototype] defines, the token is replaced by the escaped
    value of the key, or by the empty string when the key is missing, and
    the scan goes on after the token.  [applyVars] returns a string as
    soon as every key read by the scan is of that kind.  Every template
    with a token splits in this way, so no token of the template is
    copied.  The text put in place of a token is not scanned again. *)
Theorem substitution_single_pass vars :
  (forall s, hasToken s = false ->
     tokenKeys s = [] /\ applyVars s vars = Some s)
  /\ (forall pre k post,
        hasToken pre = false -> isKey k = true ->
        tokenKeys (pre +:+ "{{" +:+ k +:+ "}}" +:+ post) = k :: tokenKeys post
        /\ ((vars !! k = None -> k ∉ OBJECT_PROTOTYPE_KEYS) ->
            applyVars (pre +:+ "{{" +:+ k +:+ "}}" +:+ post) vars
            = (fun t =>
                 pre +:+ escapeForDoubleQuotes (default EmptyString (vars !! k))
                     +:+ t)
                <$> applyVars post vars))
  /\ (forall s,
        (forall k, k ∈ tokenKeys s ->
           vars !! k = None -> k ∉ OBJECT_PROTOTYPE_KEYS) ->
        exists t, applyVars s vars = Some t)
  /\ (forall s, hasToken s = true ->
        exists pre k post,
          s = pre +:+ "{{" +:+ k +:+ "}}" +:+ post
          /\ hasToken pre = false /\ isKey k = true).
Proof.
  split_and!.
  - intros s Hs. split; [by apply tokenKeys_no_token|by apply applyVars_no_token].
  - intros pre k post Hpre Hk. split; [by apply tokenKeys_first_token|].
    intros Hown. rewrite applyVars_first_token by done.
    by rewrite substitute_default.
  - intros s Hkeys. apply applyVars_is_Some. intros k Hk.
    rewrite substitute_default by auto. by eexists.
  - apply hasToken_first.
Qed.

Lemma substitution_single_pass_witness :
  (tokenKeys "echo done" = []
   /\ applyVars "echo done" {[ "git_name" := "me" ]} = Some "echo done")
  /\ (tokenKeys ("name=" +:+ "{{" +:+ "git_name" +:+ "}}" +:+ "; mail={{git_email}}")
      = "git_name" :: tokenKeys "; mail={{git_email}}"
      /\ applyVars ("name=" +:+ "{{" +:+ "git_name" +:+ "}}" +:+ "; mail={{git_email}}")
           {[ "git_name" := "me" ]}
         = (fun t =>
              "name=" +:+ escapeForDoubleQuotes (default EmptyString
                            (({[ "git_name" := "me" ]} : gmap string string)
                               !! "git_name"))
                      +:+ t)
             <$> applyVars "; mail={{git_email}}" {[ "git_name" := "me" ]})
  /\ (exists t,
        applyVars "name={{git_name}}; mail={{git_email}}" {[ "git_name" := "me" ]}
        = Some t)
  /\ exists pre k post,
       "a{{k}}b" = pre +:+ "{{" +:+ k +:+ "}}" +:+ post
       /\ hasToken pre = false /\ isKey k = true.
Proof.
  destruct (substitution_single_pass {[ "git_name" := "me" ]})
    as (H1 & H2 & H3 & H4).
  split; [|split; [|split]].
  - apply H1. reflexivity.
  - destruct (H2 "name=" "git_name" "; mail={{git_email}}" eq_refl eq_refl)
      as [Hkeys Hscan].
    split; [exact Hkeys|]. apply Hscan. intros Hnone. by vm_compute in Hnone.
  - apply H3. intros k Hk _.
    assert (tokenKeys "name={{git_name}}; mail={{git_email}}"
            = ["git_name"; "git_email"]) as Hkeys by (by vm_compute).
    rewrite Hkeys in Hk.
    apply elem_of_cons in Hk as [->|Hk]; [by apply not_inherited|].
    apply list_elem_of_singleton in Hk as ->. by apply not_inherited.
  - apply H4. reflexivity.
Defined.

(** C7 as stated fails: the output can hold a token, also when no key is a
    name that [Object.prototype] defines.  Removing the inner token of
    [{{{{a}}b}}] leaves [{{b}}], and a value is copied as it is, braces
    included. *)
Lemma substitution_can_leave_token :
  ("a" ∉ OBJECT_PROTOTYPE_KEYS)
  /\ applyVars "{{{{a}}b}}" ∅ = Some "{{b}}"
  /\ applyVars "{{a}}" {[ "a" := "{{b}}" ]} = Some "{{b}}"
  /\ hasToken "{{b}}" = true.
Proof.
  split_and!; [by apply not_inherited|by vm_compute..].
Qed.

(** ** Assembly *)

Lemma forEach_app {St A} (f : A -> St -> option St) xs ys st :
  forEach f (xs ++ ys) st
  = match forEach f xs st with Some st' => forEach f ys st' | None => None end.
Proof.
  revert st. induction xs as [|x xs IH]; intros st; simpl; [done|].
  by destruct (f x st).
Qed.

(** An iteration appends to the blocks pushed so far and does not read
    them. *)
Lemma emitModule_blocks byId input id blocks :
  emitModule byId input id blocks
  = (fun new => blocks ++ new) <$> emitModule byId input id [].
Proof.
  unfold emitModule. destruct (byId !! id) as [md|]; simpl; [|by rewrite app_nil_r].
  destruct (scriptFor _ _) as [[|c s]|]; simpl; try done.
  destruct (applyVars _ _); simpl; [|done]. by rewrite <- app_assoc.
Qed.

Lemma forEach_emitModule byId input l : forall acc,
  forEach (emitModule byId input) l acc
  = (fun new => acc ++ new) <$> blocksOf byId input l.
Proof.
  unfold blocksOf. induction l as [|x l IH]; intros acc; simpl.
  - by rewrite app_nil_r.
  - rewrite (emitModule_blocks _ _ x acc).
    destruct (emitModule byId input x []) as [new|]; simpl; [|done].
    rewrite IH, (IH new).
    destruct (forEach (emitModule byId input) l []); simpl; [|done].
    by rewrite app_assoc.
Qed.

Lemma blocksOf_cons byId input id l :
  blocksOf byId input (id :: l)
  = match emitModule byId input id [] with
    | Some new => (fun rest => new ++ rest) <$> blocksOf byId input l
    | None => None
    end.
Proof.
  unfold blocksOf at 1. simpl.
  destruct (emitModule byId input id []); [apply forEach_emitModule|done].
Qed.

Lemma blocksOf_app byId input l1 l2 :
  blocksOf byId input (l1 ++ l2)
  = match blocksOf byId input l1 with
    | Some b1 => (fun b2 => b1 ++ b2) <$> blocksOf byId input l2
    | None => None
    end.
Proof.
  unfold blocksOf at 1. rewrite forEach_app. fold (blocksOf byId input l1).
  destruct (blocksOf byId input l1); [apply forEach_emitModule|done].
Qed.

(** The blocks of a run, around the iteration for one id. *)
Lemma assembleBlocks_split byId input pre id post :
  assembleBlocks byId input (pre ++ id :: post)
  = match blocksOf byId input pre, emitModule byId input id [],
          blocksOf byId input post with
    | Some bpre, Some new, Some bpost =>
        Some ([header (os input)] ++ bpre ++ new ++ bpost ++ [footer])
    | _, _, _ => None
    end.
Proof.
  unfold assembleBlocks.
  rewrite forEach_emitModule, blocksOf_app, blocksOf_cons.
  destruct (blocksOf byId input pre) as [bpre|]; simpl; [|done].
  destruct (emitModule byId input id []) as [new|]; simpl; [|done].
  destruct (blocksOf byId input post) as [bpost|]; simpl; [|done].
  by rewrite <- !app_assoc.
Qed.

(** The position of an id in the list [ordered]. *)
Lemma orderedIds_split byId input id :
  id ∈ orderedIds byId input ->
  exists pre post,
    orderedIds byId input = pre ++ id :: post /\ (id ∉ pre) /\ (id ∉ post).
Proof.
  intros Hin.
  destruct (list_elem_of_split _ _ Hin) as (pre & post & Heq).
  pose proof (uniqueKeepOrder_NoDup (resolveWithDeps (selectedIds input) byId)) as Hnd.
  fold (orderedIds byId input) in Hnd.
  rewrite Heq in Hnd. apply NoDup_app in Hnd as (_ & Hpre & Hpost).
  apply NoDup_cons in Hpost as [Hpost _].
  exists pre, post. split_and!; [done| |done].
  intros Hx. apply (Hpre _ Hx). by left.
Qed.

(** The outcome of a run, around the iteration for one id. *)
Lemma generateScriptFrom_split byId input pre id post :
  orderedIds byId input = pre ++ id :: post ->
  generateScriptFrom byId input
  = match blocksOf byId input pre, emitModule byId input id [],
          blocksOf byId input post with
    | Some bpre, Some new, Some bpost =>
        Some {| scriptText :=
                  String.concat nl
                    ([header (os input)] ++ bpre ++ new ++ bpost ++ [footer]);
                includedIds := pre ++ id :: post |}
    | _, _, _ => None
    end.
Proof.
  intros Heq. unfold generateScriptFrom. rewrite Heq, assembleBlocks_split.
  destruct (blocksOf byId input pre) as [bpre|]; [|done].
  destruct (emitModule byId input id []) as [new|]; [|done].
  by destruct (blocksOf byId input post) as [bpost|].
Qed.

(** A module whose fragment for the OS is absent or empty contributes the
    skip notice and nothing else, and its iteration does not raise. *)
Lemma skipped_module byId input id md :
  id ∈ orderedIds byId input ->
  byId !! id = Some md ->
  scriptFor (script md) (os input) = None
  \/ scriptFor (script md) (os input) = Some EmptyString ->
  (forall blocks,
     emitModule byId input id blocks = Some (blocks ++ [skipNotice md (os input)]))
  /\ exists pre post,
    orderedIds byId input = pre ++ id :: post
    /\ (id ∉ pre) /\ (id ∉ post)
    /\ generateScriptFrom byId input
       = match blocksOf byId input pre, blocksOf byId input post with
         | Some bpre, Some bpost =>
             Some {| scriptText :=
                       String.concat nl
                         ([header (os input)] ++ bpre
                            ++ [skipNotice md (os input)] ++ bpost ++ [footer]);
                     includedIds := pre ++ id :: post |}
         | _, _ => None
         end.
Proof.
  intros Hin Hmd Hs.
  assert (forall blocks,
            emitModule byId input id blocks
            = Some (blocks ++ [skipNotice md (os input)])) as Hemit.
  { intros blocks. unfold emitModule. rewrite Hmd. by destruct Hs as [-> | ->]. }
  split; [exact Hemit|].
  destruct (orderedIds_split _ _ _ Hin) as (pre & post & Heq & Hpre & Hpost).
  exists pre, post. split_and!; [done..|].
  rewrite (generateScriptFrom_split _ _ _ _ _ Heq), Hemit.
  by destruct (blocksOf byId input pre), (blocksOf byId input post).
Qed.

(** C9.  An id of the resolved order whose module has no fragment for the
    requested OS is listed in [includedIds] of every result.  Its
    iteration does not raise and pushes one echo line that names the
    module and says that it is not supported on that OS.  The outcome of
    [generateScript] is fixed by the blocks of the other ids: when they
    are produced, the script is the join of the header, the blocks of the
    ids before it, that one line, the blocks of the ids after it, and the
    footer, so no banner and no fragment is emitted for it and the
    assembly goes on with the next id. *)
Theorem unsupported_os_is_skipped byId input id md :
  id ∈ orderedIds byId input ->
  byId !! id = Some md ->
  scriptFor (script md) (os input) = None ->
  (forall res, generateScriptFrom byId input = Some res -> id ∈ includedIds res)
  /\ (forall blocks,
        emitModule byId input id blocks
        = Some (blocks ++ [skipNotice md (os input)]))
  /\ skipNotice md (os input)
     = "echo " +:+ dq +:+ "[SKIP] " +:+ name md
         +:+ " (not supported on " +:+ OS_tag (os input) +:+ ")" +:+ dq
  /\ exists pre post,
       orderedIds byId input = pre ++ id :: post
       /\ (id ∉ pre) /\ (id ∉ post)
       /\ generateScriptFrom byId input
          = match blocksOf byId input pre, blocksOf byId input post with
            | Some bpre, Some bpost =>
                Some {| scriptText :=
                          String.concat nl
                            ([header (os input)] ++ bpre
                               ++ [skipNotice md (os input)]
                               ++ bpost ++ [footer]);
                        includedIds := pre ++ id :: post |}
            | _, _ => None
            end.
Proof.
  intros Hin Hmd Hs.
  destruct (skipped_module byId input id md Hin Hmd (or_introl Hs)) as [Hemit Hrun].
  split_and!; [|done|reflexivity|done].
  intros res Hres. by rewrite (generateScriptFrom_includedIds _ _ _ Hres).
Qed.

Lemma unsupported_os_is_skipped_witness :
  (forall res, generateScriptFrom skipIndex (select mac ["app"]) = Some res ->
     "tool" ∈ includedIds res)
  /\ (forall blocks,
        emitModule skipIndex (select mac ["app"]) "tool" blocks
        = Some (blocks ++ [skipNotice ubuntuOnly mac]))
  /\ skipNotice ubuntuOnly mac
     = "echo " +:+ dq +:+ "[SKIP] " +:+ "Tool"
         +:+ " (not supported on " +:+ "mac" +:+ ")" +:+ dq
  /\ exists pre post,
       orderedIds skipIndex (select mac ["app"]) = pre ++ "tool" :: post
       /\ ("tool" ∉ pre) /\ ("tool" ∉ post)
       /\ generateScriptFrom skipIndex (select mac ["app"])
          = match blocksOf skipIndex (select mac ["app"]) pre,
                  blocksOf skipIndex (select mac ["app"]) post with
            | Some bpre, Some bpost =>
                Some {| scriptText :=
                          String.concat nl
                            ([header mac] ++ bpre
                               ++ [skipNotice ubuntuOnly mac]
                               ++ bpost ++ [footer]);
                        includedIds := pre ++ "tool" :: post |}
            | _, _ => None
            end.
Proof.
  apply (unsupported_os_is_skipped skipIndex (select mac ["app"]) "tool" ubuntuOnly).
  - vm_compute. repeat constructor.
  - by vm_compute.
  - reflexivity.
Defined.



(** The whole script of the sample: two skip notices, then the banner and
    the fragment of the module that requires the two skipped ones. *)
Example skip_sample_script :
  generateScriptFrom skipIndex (select mac ["app"])
  = Some {| scriptText :=
              String.concat nl
                [header mac;
                 "echo " +:+ dq +:+ "[SKIP] Tool (not supported on mac)" +:+ dq;
                 "echo " +:+ dq +:+ "[SKIP] Stub (not supported on mac)" +:+ dq;
                 banner needsBoth;
                 "echo app";
                 footer];
            includedIds := ["tool"; "stub"; "app"] |}.
Proof. by vm_compute. Qed.

(** * Further properties of the engine *)

(** ** The index *)

Lemma buildIndex_snoc ms m : buildIndex (ms ++ [m]) = <[id m := m]> (buildIndex ms).
Proof. unfold buildIndex. by rewrite fold_left_app. Qed.

Lemma buildIndex_lookup (ms : list ModuleDef) (k : string) :
  buildIndex ms !! k = last (filter (fun m => id m = k) ms).
Proof.
  induction ms as [|m ms IH] using rev_ind; [done|].
  rewrite buildIndex_snoc, filter_app, lookup_insert.
  destruct (decide (id m = k)) as [Heq|Hne].
  - rewrite filter_cons_True, filter_nil by done. by rewrite last_snoc.
  - rewrite filter_cons_False, filter_nil, app_nil_r by done. done.
Qed.

(** X1.  A lookup in the index built from a list of modules returns the
    last module of the list that carries the id, and nothing when no
    module carries it. *)
Theorem buildIndex_last_wins (ms : list ModuleDef) (k : string) :
  buildIndex ms !! k = last (filter (fun m => id m = k) ms).
Proof. apply buildIndex_lookup. Qed.

Lemma buildIndex_lookup_Some ms k m :
  buildIndex ms !! k = Some m -> m ∈ ms /\ id m = k.
Proof.
  rewrite buildIndex_lookup. intros H%last_Some_elem_of.
  by apply list_elem_of_filter in H as [? ?].
Qed.

(** ** Exactly the reachable modules *)

(** A loop keeps what each of its iterations keeps. *)
Lemma forEach_invariant {St A} (f : A -> St -> option St)
    (I : St -> Prop) (Q : A -> Prop) :
  (forall x st st', Q x -> I st -> f x st = Some st' -> I st') ->
  forall xs st st',
    (forall x, x ∈ xs -> Q x) -> I st -> forEach f xs st = Some st' -> I st'.
Proof.
  intros Hf xs. induction xs as [|x xs IH]; intros st st' Hxs Hst H;
    cbn [forEach] in H.
  - by injection H as <-.
  - destruct (f x st) as [st1|] eqn:E; [|done].
    apply (IH st1); [intros; apply Hxs; by right| |done].
    apply (Hf x st); [apply Hxs; by left|done..].
Qed.

Section Reach.

Variable byId : gmap string ModuleDef.

Lemma dfs_out_closed (P : string -> Prop) fuel :
  (forall x y, P x -> requiresEdge byId x y -> P y) ->
  forall id st st',
    dfs fuel byId id st = Some st' -> P id ->
    (forall x, x ∈ out st -> P x) -> forall x, x ∈ out st' -> P x.
Proof.
  intros Hstep. induction fuel as [|fuel IH]; intros id st st' H Hid Hout;
    simpl in H; [done|].
  case_decide; [by injection H as <-|].
  destruct (byId !! id) as [md|] eqn:Hmd; [|by injection H as <-].
  destruct (forEach _ _ _) as [st2|] eqn:E; [|done]. injection H as <-. simpl.
  intros x [Hx| ->%list_elem_of_singleton]%elem_of_app; [|done].
  revert x Hx.
  apply (forEach_invariant (dfs fuel byId)
           (fun s => forall x, x ∈ out s -> P x) P) with (requiresOf md)
           {| visited := {[id]} ∪ visited st; out := out st |}; [| |done|done].
  - intros d s s' Hd Hs Hrun. by apply (IH d s).
  - intros d Hd. apply (Hstep id); [done|]. by exists md.
Qed.

Lemma resolveWithDeps_reachable ids x :
  x ∈ resolveWithDeps ids byId ->
  exists s, s ∈ ids /\ rtc (requiresEdge byId) s x.
Proof.
  pose proof (resolveWithDeps_fuel_enough byId (S (size byId)) ids
                (Nat.lt_succ_diag_r _)) as H.
  unfold resolveWithDeps_fuel in H.
  destruct (forEach _ _ _) as [st|] eqn:E; [|done]. injection H as <-.
  set (P := fun y => exists s, s ∈ ids /\ rtc (requiresEdge byId) s y).
  apply (forEach_invariant (dfs (S (size byId)) byId)
           (fun s => forall y, y ∈ out s -> P y) P) with ids initial;
    [| | |done].
  - intros d s s' Hd Hs Hrun.
    apply (dfs_out_closed P (S (size byId))) with d s; auto.
    intros a b (r & Hr & Hra) Hab. exists r. split; [done|]. by eapply rtc_r.
  - intros d Hd. by exists d.
  - intros y Hy. by apply elem_of_nil in Hy.
Qed.

Lemma resolveWithDeps_elem ids x :
  x ∈ resolveWithDeps ids byId
  <-> is_Some (byId !! x)
      /\ exists s, s ∈ ids /\ rtc (requiresEdge byId) s x.
Proof.
  split.
  - intros Hx. split; [by eapply resolveWithDeps_known|].
    by apply resolveWithDeps_reachable.
  - intros (Hk & s & Hs & Hpath). by eapply resolveWithDeps_closed.
Qed.

(** X2.  The resolver returns exactly the keys of the index that can be
    reached from the selection along requires: nothing the selection does
    not need is ever included. *)
Theorem resolveWithDeps_exact ids x :
  x ∈ resolveWithDeps ids byId
  <-> is_Some (byId !! x)
      /\ exists s, s ∈ ids /\ rtc (requiresEdge byId) s x.
Proof. apply resolveWithDeps_elem. Qed.

(** ** Extending and repeating the selection *)

Lemma dfs_out_prefix fuel : forall id st st',
  dfs fuel byId id st = Some st' -> out st `prefix_of` out st'.
Proof.
  induction fuel as [|fuel IH]; intros id st st' H; simpl in H; [done|].
  case_decide; [by injection H as <-|].
  destruct (byId !! id) as [md|]; [|by injection H as <-].
  destruct (forEach _ _ _) as [st2|] eqn:E; [|done]. injection H as <-. simpl.
  etrans; [|by apply prefix_app_r].
  apply (forEach_invariant (dfs fuel byId)
           (fun s => out st `prefix_of` out s) (fun _ => True))
    with (requiresOf md) {| visited := {[id]} ∪ visited st; out := out st |};
    [|done|done|done].
  intros d s s' _ Hs Hrun. etrans; [exact Hs|by eapply IH].
Qed.

Lemma forEach_dfs_out_prefix fuel xs st st' :
  forEach (dfs fuel byId) xs st = Some st' -> out st `prefix_of` out st'.
Proof.
  apply (forEach_invariant (dfs fuel byId)
           (fun s => out st `prefix_of` out s) (fun _ => True)); [|done|done].
  intros d s s' _ Hs Hrun. etrans; [exact Hs|by eapply dfs_out_prefix].
Qed.

(** X3.  Adding ids at the end of the selection only adds ids at the end
    of the result: what was resolved for the shorter selection keeps its
    place. *)
Theorem resolveWithDeps_app_prefix ids ids' :
  resolveWithDeps ids byId `prefix_of` resolveWithDeps (ids ++ ids') byId.
Proof.
  pose proof (resolveWithDeps_fuel_enough byId (S (size byId)) ids
                (Nat.lt_succ_diag_r _)) as H1.
  pose proof (resolveWithDeps_fuel_enough byId (S (size byId)) (ids ++ ids')
                (Nat.lt_succ_diag_r _)) as H2.
  unfold resolveWithDeps_fuel in *. rewrite forEach_app in H2.
  destruct (forEach _ ids _) as [st1|]; [|done]. injection H1 as <-.
  destruct (forEach _ ids' _) as [st2|] eqn:E; [|done]. injection H2 as <-.
  by eapply forEach_dfs_out_prefix.
Qed.

Lemma forEach_dfs_skip_visited fuel x l : forall st,
  x ∈ visited st ->
  forEach (dfs (S fuel) byId) l st
  = forEach (dfs (S fuel) byId) (filter (fun y => y <> x) l) st.
Proof.
  induction l as [|y l IH]; intros st Hx; [done|].
  destruct (decide (y = x)) as [->|Hne].
  - rewrite filter_cons_False by auto.
    cbn [forEach]. simpl dfs. rewrite decide_True by done. by apply IH.
  - rewrite filter_cons_True by auto. cbn [forEach].
    destruct (dfs (S fuel) byId y st) as [st1|] eqn:E; [|done].
    apply IH. apply dfs_visited in E as [Hsub _]. set_solver.
Qed.

Lemma forEach_dfs_keepFirst fuel l : forall st,
  forEach (dfs (S fuel) byId) l st = forEach (dfs (S fuel) byId) (keepFirst l) st.
Proof.
  induction l as [|x l IH]; intros st; [done|].
  cbn [keepFirst forEach].
  destruct (dfs (S fuel) byId x st) as [st1|] eqn:E; [|done].
  rewrite IH. apply forEach_dfs_skip_visited.
  by apply dfs_visited in E as [_ ?].
Qed.

(** X4.  Repeating an id in the selection changes nothing: the result for
    a selection is the result for the selection with later duplicates
    dropped. *)
Theorem resolveWithDeps_ignores_duplicates ids :
  resolveWithDeps ids byId = resolveWithDeps (uniqueKeepOrder ids) byId.
Proof.
  unfold resolveWithDeps, resolveWithDeps_fuel.
  by rewrite uniqueKeepOrder_keepFirst, forEach_dfs_keepFirst.
Qed.

(** X5.  The de-duplication pass of [generateScript] never changes the
    list it receives from the resolver. *)
Theorem post_pass_changes_nothing ids :
  uniqueKeepOrder (resolveWithDeps ids byId) = resolveWithDeps ids byId.
Proof. apply uniqueKeepOrder_id, resolveWithDeps_NoDup. Qed.

End Reach.

(** ** The slot of a module in the script *)

(** X6.  An included module that has a non-empty fragment for the OS
    contributes two blocks, its banner and then its fragment with the
    variables substituted, between the blocks of the ids before it and of
    the ids after it; [generateScript] returns that script when the
    substitution and the blocks of the other ids are produced, and raises
    otherwise. *)
Theorem supported_module_emits_banner_and_fragment byId input id md c s :
  id ∈ orderedIds byId input ->
  byId !! id = Some md ->
  scriptFor (script md) (os input) = Some (String c s) ->
  exists pre post,
    orderedIds byId input = pre ++ id :: post
    /\ (id ∉ pre) /\ (id ∉ post)
    /\ generateScriptFrom byId input
       = match blocksOf byId input pre, applyVars (String c s) (vars input),
               blocksOf byId input post with
         | Some bpre, Some t, Some bpost =>
             Some {| scriptText :=
                       String.concat nl
                         ([header (os input)] ++ bpre ++ [banner md; t]
                            ++ bpost ++ [footer]);
                     includedIds := pre ++ id :: post |}
         | _, _, _ => None
         end.
Proof.
  intros Hin Hmd Hs.
  destruct (orderedIds_split _ _ _ Hin) as (pre & post & Heq & Hpre & Hpost).
  exists pre, post. split_and!; [done..|].
  rewrite (generateScriptFrom_split _ _ _ _ _ Heq).
  unfold emitModule. rewrite Hmd, Hs.
  destruct (blocksOf byId input pre) as [bpre|]; [|done].
  by destruct (applyVars (String c s) (vars input)) as [t|].
Qed.

Lemma supported_module_emits_banner_and_fragment_witness :
  exists pre post,
    orderedIds skipIndex (select ubuntu ["app"]) = pre ++ "tool" :: post
    /\ ("tool" ∉ pre) /\ ("tool" ∉ post)
    /\ generateScriptFrom skipIndex (select ubuntu ["app"])
       = match blocksOf skipIndex (select ubuntu ["app"]) pre,
               applyVars "echo tool" ∅,
               blocksOf skipIndex (select ubuntu ["app"]) post with
         | Some bpre, Some t, Some bpost =>
             Some {| scriptText :=
                       String.concat nl
                         ([header ubuntu] ++ bpre ++ [banner ubuntuOnly; t]
                            ++ bpost ++ [footer]);
                     includedIds := pre ++ "tool" :: post |}
         | _, _, _ => None
         end.
Proof.
  apply (supported_module_emits_banner_and_fragment skipIndex
           (select ubuntu ["app"]) "tool" ubuntuOnly "e" "cho tool").
  - vm_compute. repeat constructor.
  - by vm_compute.
  - reflexivity.
Defined.

(** ** Nothing to resolve *)

(** X7.  When no selected id is a key of the index (in particular when the
    selection is empty), [generateScript] returns, no id is included and
    the script is the header and the footer joined by one line feed. *)
Theorem nothing_known_selected byId input :
  (forall s, s ∈ selectedIds input -> byId !! s = None) ->
  generateScriptFrom byId input
  = Some {| scriptText := header (os input) +:+ nl +:+ footer;
            includedIds := [] |}.
Proof.
  intros Hnone.
  assert (resolveWithDeps (selectedIds input) byId = []) as Hnil.
  { apply elem_of_nil_inv. intros x Hx.
    apply resolveWithDeps_elem in Hx as ([md Hmd] & s & Hs & Hpath).
    specialize (Hnone s Hs).
    destruct Hpath as [|? y ? (md' & Hs' & _) _]; congruence. }
  unfold generateScriptFrom, orderedIds. rewrite Hnil. reflexivity.
Qed.

Lemma nothing_known_selected_witness :
  generateScriptFrom mapById (select mac ["no.such.module"])
  = Some {| scriptText := header mac +:+ nl +:+ footer; includedIds := [] |}.
Proof.
  apply (nothing_known_selected mapById (select mac ["no.such.module"])).
  intros s ->%list_elem_of_singleton. by vm_compute.
Defined.

(** ** Registries listed in dependency order *)

Lemma rankOf_prefix ids1 x ids2 :
  x ∈ ids1 -> rankOf (ids1 ++ ids2) x < length ids1.
Proof.
  induction ids1 as [|y ids1 IH]; intros Hx; [by apply elem_of_nil in Hx|].
  simpl. case_decide; [lia|].
  apply elem_of_cons in Hx as [->|Hx]; [done|]. specialize (IH Hx). lia.
Qed.

Lemma rankOf_first ids1 x ids2 :
  x ∉ ids1 -> rankOf (ids1 ++ x :: ids2) x = length ids1.
Proof.
  induction ids1 as [|y ids1 IH]; intros Hx; simpl.
  - by rewrite decide_True.
  - apply not_elem_of_cons in Hx as [Hne Hx].
    rewrite decide_False by done. by rewrite IH.
Qed.

Lemma requiresEarlier_split ms : forall seen ms1 m ms2,
  requiresEarlier seen ms = true -> ms = ms1 ++ m :: ms2 ->
  (id m ∉ seen ++ (id <$> ms1))
  /\ forall d, d ∈ requiresOf m -> d ∈ seen ++ (id <$> ms1).
Proof.
  induction ms as [|m0 ms IH]; intros seen ms1 m ms2 H Heq.
  - by destruct ms1.
  - simpl in H. apply andb_prop in H as [[Hreq Hfresh]%andb_prop Hrest].
    destruct ms1 as [|m1 ms1]; simpl in Heq; injection Heq as <- ->.
    + simpl. rewrite app_nil_r. split; [by apply bool_decide_eq_true in Hfresh|].
      intros d Hd. rewrite forallb_forall in Hreq.
      apply list_elem_of_In, Hreq in Hd. by apply bool_decide_eq_true in Hd.
    + destruct (IH _ ms1 m ms2 Hrest eq_refl) as [H1 H2].
      rewrite fmap_cons. rewrite <- app_assoc in H1, H2. done.
Qed.

Section Ordered.

Variable ms : list ModuleDef.
Hypothesis ordered : requiresEarlier [] ms = true.

Lemma ordered_edge x y :
  requiresEdge (buildIndex ms) x y ->
  rankOf (id <$> ms) y < rankOf (id <$> ms) x /\ is_Some (buildIndex ms !! y).
Proof.
  intros (md & Hx & Hy).
  apply buildIndex_lookup_Some in Hx as [Hin <-].
  destruct (list_elem_of_split _ _ Hin) as (ms1 & ms2 & ->).
  destruct (requiresEarlier_split _ [] ms1 md ms2 ordered eq_refl) as [Hfresh Hreq].
  specialize (Hreq y Hy). simpl in Hfresh, Hreq.
  rewrite fmap_app, fmap_cons. split.
  - rewrite (rankOf_first _ (id md)) by done. rewrite length_fmap.
    rewrite <- (length_fmap id ms1). by apply rankOf_prefix.
  - rewrite buildIndex_lookup.
    apply list_elem_of_fmap in Hreq as (m' & -> & Hm').
    destruct (filter (fun m => id m = id m') (ms1 ++ md :: ms2)) as [|a l] eqn:E.
    + exfalso. eapply (filter_nil_not_elem_of _ _ m' E); [done|set_solver].
    + rewrite last_cons. destruct (last l); by eexists.
Qed.

Lemma ordered_acyclic x : ~ tc (requiresEdge (buildIndex ms)) x x.
Proof.
  assert (forall a b, tc (requiresEdge (buildIndex ms)) a b ->
            rankOf (id <$> ms) b < rankOf (id <$> ms) a) as Hlt.
  { induction 1 as [a b Hab|a b c Hab _ IH].
    - by apply ordered_edge.
    - apply ordered_edge in Hab as [? _]. lia. }
  intros H%Hlt. lia.
Qed.

End Ordered.

(** X8.  For a registry whose list gives every module a fresh id and puts
    it after all the modules it requires, as [MODULES] does, the list
    [ordered], which is the list of included ids of every result, is
    closed and in topological order without proviso: whenever a module is
    included, each id it requires is included and stands strictly before
    it. *)
Theorem ordered_registry_resolves_topologically ms input m md d :
  requiresEarlier [] ms = true ->
  m ∈ orderedIds (buildIndex ms) input ->
  buildIndex ms !! m = Some md ->
  d ∈ requiresOf md ->
  (d ∈ orderedIds (buildIndex ms) input
   /\ before (orderedIds (buildIndex ms) input) d m)
  /\ (forall res, generateScriptFrom (buildIndex ms) input = Some res ->
        includedIds res = orderedIds (buildIndex ms) input
        /\ d ∈ includedIds res /\ before (includedIds res) d m).
Proof.
  intros Hord Hm Hmd Hd.
  assert (requiresEdge (buildIndex ms) m d) as Hedge by (by exists md).
  assert (d ∈ orderedIds (buildIndex ms) input) as Hin.
  { rewrite orderedIds_resolved in *.
    apply resolveWithDeps_elem in Hm as (_ & s & Hs & Hpath).
    apply resolveWithDeps_elem. split.
    - by apply (ordered_edge ms Hord m d).
    - exists s. split; [done|]. by eapply rtc_r. }
  assert (before (orderedIds (buildIndex ms) input) d m) as Hbefore.
  { apply (topological_order_acyclic (buildIndex ms) input m md d); auto.
    intros x. by apply ordered_acyclic. }
  split; [done|].
  intros res Hres. by rewrite (generateScriptFrom_includedIds _ _ _ Hres).
Qed.

Lemma ordered_registry_resolves_topologically_witness :
  ("dev.git" ∈ orderedIds (buildIndex MODULES) (select mac ["lang.node_lts"])
   /\ before (orderedIds (buildIndex MODULES) (select mac ["lang.node_lts"]))
        "dev.git" "lang.nvm")
  /\ (forall res,
        generateScriptFrom (buildIndex MODULES) (select mac ["lang.node_lts"])
        = Some res ->
        includedIds res
        = orderedIds (buildIndex MODULES) (select mac ["lang.node_lts"])
        /\ "dev.git" ∈ includedIds res
        /\ before (includedIds res) "dev.git" "lang.nvm").
Proof.
  destruct (buildIndex MODULES !! "lang.nvm") as [md|] eqn:Hmd; [|by vm_compute in Hmd].
  apply (ordered_registry_resolves_topologically MODULES
           (select mac ["lang.node_lts"]) "lang.nvm" md "dev.git").
  - by vm_compute.
  - vm_compute. repeat constructor.
  - exact Hmd.
  - vm_compute in Hmd. injection Hmd as <-. vm_compute. repeat constructor.
Defined.

(** ** Registries with a fragment for every module *)

Lemma emitModule_supported byId input k md :
  byId !! k = Some md -> hasFragment (os input) md = true ->
  emitModule byId input k [] = bannerAndFragment byId input k.
Proof.
  intros Hmd Hfrag. unfold hasFragment in Hfrag.
  unfold emitModule, bannerAndFragment. rewrite Hmd.
  by destruct (scriptFor _ _) as [[|c s]|].
Qed.

Lemma blocksOf_supported byId input l :
  (forall k md, byId !! k = Some md -> hasFragment (os input) md = true) ->
  (forall k, k ∈ l -> is_Some (byId !! k)) ->
  blocksOf byId input l
  = (fun pairs => List.concat pairs) <$> mapM (bannerAndFragment byId input) l.
Proof.
  intros Hfrag. induction l as [|k l IH]; intros Hl; [done|].
  rewrite blocksOf_cons, IH by (intros; apply Hl; by right).
  destruct (Hl k) as [md Hmd]; [by left|].
  rewrite (emitModule_supported _ _ _ md) by eauto.
  cbn [mapM]. destruct (bannerAndFragment byId input k) as [new|]; [|done].
  simpl. by destruct (mapM _ l).
Qed.

(** X9.  When every module of the index has a non-empty fragment for the
    requested OS, as every module of [MODULES] has for both, no skip
    notice is emitted: the script is the join of the header, then for
    each included id in order its banner followed by its fragment with
    the variables substituted, then the footer; [generateScript] raises
    exactly when one of these substitutions does. *)
Theorem all_supported_two_blocks_each byId input :
  (forall k md, byId !! k = Some md -> hasFragment (os input) md = true) ->
  (forall k, k ∈ orderedIds byId input ->
     exists md c s,
       byId !! k = Some md
       /\ scriptFor (script md) (os input) = Some (String c s)
       /\ bannerAndFragment byId input k
          = (fun t => [banner md; t]) <$> applyVars (String c s) (vars input))
  /\ generateScriptFrom byId input
     = (fun pairs =>
          {| scriptText :=
               String.concat nl
                 ([header (os input)] ++ List.concat pairs ++ [footer]);
             includedIds := orderedIds byId input |})
         <$> mapM (bannerAndFragment byId input) (orderedIds byId input).
Proof.
  intros Hfrag.
  assert (forall k, k ∈ orderedIds byId input -> is_Some (byId !! k)) as Hknown.
  { intros k Hk. rewrite orderedIds_resolved in Hk.
    by eapply resolveWithDeps_known. }
  split.
  - intros k [md Hmd]%Hknown. pose proof (Hfrag k md Hmd) as Hk.
    unfold hasFragment in Hk.
    destruct (scriptFor (script md) (os input)) as [[|c s]|] eqn:Hs; try done.
    exists md, c, s. split_and!; [done..|].
    unfold bannerAndFragment. rewrite Hmd, Hs. by destruct (applyVars _ _).
  - unfold generateScriptFrom, assembleBlocks.
    rewrite forEach_emitModule, blocksOf_supported by done.
    by destruct (mapM _ _).
Qed.

Lemma all_supported_two_blocks_each_witness :
  (forall k, k ∈ orderedIds mapById (select ubuntu ["lang.uv"; "cli.jq"]) ->
     exists md c s,
       mapById !! k = Some md
       /\ scriptFor (script md) ubuntu = Some (String c s)
       /\ bannerAndFragment mapById (select ubuntu ["lang.uv"; "cli.jq"]) k
          = (fun t => [banner md; t]) <$> applyVars (String c s) ∅)
  /\ generateScriptFrom mapById (select ubuntu ["lang.uv"; "cli.jq"])
     = (fun pairs =>
          {| scriptText :=
               String.concat nl ([header ubuntu] ++ List.concat pairs ++ [footer]);
             includedIds := orderedIds mapById (select ubuntu ["lang.uv"; "cli.jq"]) |})
         <$> mapM (bannerAndFragment mapById (select ubuntu ["lang.uv"; "cli.jq"]))
               (orderedIds mapById (select ubuntu ["lang.uv"; "cli.jq"])).
Proof.
  apply (all_supported_two_blocks_each mapById (select ubuntu ["lang.uv"; "cli.jq"])).
  intros k md [Hin _]%buildIndex_lookup_Some.
  assert (forallb (hasFragment ubuntu) MODULES = true) as Hall by (by vm_compute).
  rewrite forallb_forall in Hall. by apply Hall, list_elem_of_In.
Defined.

(** ** When [generateScript] returns *)

Lemma forEach_is_Some {St A} (f : A -> St -> option St) (l : list A) :
  (forall x st, x ∈ l -> is_Some (f x st)) ->
  forall st, is_Some (forEach f l st).
Proof.
  induction l as [|x l IH]; intros Hf st; simpl; [by eexists|].
  destruct (Hf x st) as [st' ->]; [by left|].
  apply IH. intros y st2 Hy. apply Hf. by right.
Qed.

Lemma forEach_is_Some_inv {St A} (f : A -> St -> option St) (l : list A) st :
  is_Some (forEach f l st) -> forall x, x ∈ l -> exists st1, is_Some (f x st1).
Proof.
  revert st. induction l as [|y l IH]; intros st Hrun x Hx;
    [by apply elem_of_nil in Hx|].
  simpl in Hrun. destruct (f y st) as [st'|] eqn:E; [|by destruct Hrun].
  apply elem_of_cons in Hx as [->|Hx]; [exists st; by rewrite E|].
  by apply (IH st').
Qed.

Lemma emitModule_is_Some byId input id blocks :
  is_Some (emitModule byId input id blocks)
  <-> forall md s,
        byId !! id = Some md -> scriptFor (script md) (os input) = Some s ->
        is_Some (applyVars s (vars input)).
Proof.
  unfold emitModule.
  destruct (byId !! id) as [md|] eqn:Hmd; [|by split; [|eexists]].
  destruct (scriptFor (script md) (os input)) as [s|] eqn:Hs.
  - split.
    + intros Hrun md' s' [= <-]. rewrite Hs. intros [= <-].
      destruct s as [|c s]; [by exists EmptyString|].
      destruct (applyVars _ _); [by eexists|by destruct Hrun].
    + intros Hall. destruct s as [|c s]; [by eexists|].
      destruct (Hall md _ eq_refl Hs) as [t ->]. by eexists.
  - split; [|by eexists]. intros _ md' s' [= <-]. by rewrite Hs.
Qed.

(** [generateScript] returns exactly when the substitution returns on
    every fragment that the loop reaches. *)
Lemma generateScriptFrom_is_Some byId input :
  is_Some (generateScriptFrom byId input)
  <-> forall id md s,
        id ∈ orderedIds byId input ->
        byId !! id = Some md -> scriptFor (script md) (os input) = Some s ->
        is_Some (applyVars s (vars input)).
Proof.
  unfold generateScriptFrom, assembleBlocks. split.
  - intros Hrun id md s Hid Hmd Hs.
    destruct (forEach _ _ _) as [blocks|] eqn:E; [|by destruct Hrun].
    destruct (forEach_is_Some_inv _ _ _ (mk_is_Some _ _ E) id Hid) as [st1 H1].
    destruct (emitModule_is_Some byId input id st1) as [Hto _].
    by apply (Hto H1 md s).
  - intros Hall.
    destruct (forEach_is_Some (emitModule byId input) (orderedIds byId input))
      with (st := [header (os input)]) as [blocks ->]; [|by eexists].
    intros id st Hid.
    destruct (emitModule_is_Some byId input id st) as [_ Hfrom].
    apply Hfrom. eauto.
Qed.

Lemma readsInherited_false s vars :
  readsInherited s = false -> is_Some (applyVars s vars).
Proof.
  intros Hsafe. apply applyVars_is_Some. intros k Hk.
  rewrite substitute_default; [by eexists|]. intros _ Hin.
  unfold readsInherited in Hsafe.
  assert (existsb (fun k => bool_decide (k ∈ OBJECT_PROTOTYPE_KEYS)) (tokenKeys s)
          = true) as Hex; [|congruence].
  apply existsb_exists. exists k. split; [by apply list_elem_of_In|].
  by apply bool_decide_eq_true.
Qed.

(** A registry whose fragments read no key that [Object.prototype]
    defines never makes [generateScript] raise. *)
Lemma safe_registry_returns ms input :
  forallb safeFragments ms = true -> is_Some (generateScriptFrom (buildIndex ms) input).
Proof.
  intros Hsafe. apply generateScriptFrom_is_Some. intros id md s _ Hmd Hs.
  apply buildIndex_lookup_Some in Hmd as [Hin _].
  rewrite forallb_forall in Hsafe. apply list_elem_of_In, Hsafe in Hin.
  unfold safeFragments in Hin. rewrite forallb_forall in Hin.
  assert (In (os input) [mac; ubuntu]) as Hos
    by (destruct (os input); simpl; auto).
  specialize (Hin _ Hos). rewrite Hs in Hin.
  apply readsInherited_false. by destruct (readsInherited s).
Qed.

(** X27.  A registry none of whose fragments reads a key that
    [Object.prototype] defines, as [MODULES], never makes [generateScript]
    raise: a result is returned for every OS, selection and variable
    map. *)
Theorem safe_registry_never_raises ms input :
  forallb safeFragments ms = true ->
  exists res,
    generateScriptFrom (buildIndex ms) input = Some res
    /\ includedIds res = orderedIds (buildIndex ms) input.
Proof.
  intros [res Hres]%(safe_registry_returns ms input).
  exists res. split; [done|]. by apply generateScriptFrom_includedIds.
Qed.

Lemma safe_registry_never_raises_witness :
  exists res,
    generateScriptFrom (buildIndex MODULES)
      {| os := ubuntu; selectedIds := ["dev.github_ssh"];
         vars := {[ "ssh_email" := "me@example.com" ]} |} = Some res
    /\ includedIds res
       = orderedIds (buildIndex MODULES)
           {| os := ubuntu; selectedIds := ["dev.github_ssh"];
              vars := {[ "ssh_email" := "me@example.com" ]} |}.
Proof.
  apply (safe_registry_never_raises MODULES). by vm_compute.
Defined.

Lemma forEach_None {St A} (f : A -> St -> option St) (l : list A) st :
  forEach f l st = None -> exists x st1, x ∈ l /\ f x st1 = None.
Proof.
  revert st. induction l as [|y l IH]; intros st; simpl; [done|].
  destruct (f y st) as [st'|] eqn:E.
  - intros (x & st1 & Hx & Hf)%IH. exists x, st1. split; [by right|done].
  - intros _. exists y, st. split; [by left|done].
Qed.

(** X28.  [generateScript] raises exactly when the fragment of an id of
    the resolved order, for the requested OS, holds a token whose key is
    not an own entry of the variable map and is a name that
    [Object.prototype] defines; in every other case it returns a
    result. *)
Theorem generateScript_raises_exactly byId input :
  generateScriptFrom byId input = None
  <-> exists id md s k,
        id ∈ orderedIds byId input
        /\ byId !! id = Some md
        /\ scriptFor (script md) (os input) = Some s
        /\ k ∈ tokenKeys s
        /\ vars input !! k = None
        /\ k ∈ OBJECT_PROTOTYPE_KEYS.
Proof.
  split.
  - unfold generateScriptFrom, assembleBlocks.
    destruct (forEach _ _ _) as [blocks|] eqn:E; [done|]. intros _.
    apply forEach_None in E as (id & st1 & Hid & Hemit).
    unfold emitModule in Hemit.
    destruct (byId !! id) as [md|] eqn:Hmd; [|done].
    destruct (scriptFor (script md) (os input)) as [[|c s]|] eqn:Hs; try done.
    destruct (applyVars (String c s) (vars input)) eqn:Hrun; [done|].
    apply applyVars_None in Hrun as (k & Hk & Hnone & Hin).
    by exists id, md, (String c s), k.
  - intros (id & md & s & k & Hid & Hmd & Hs & Hk & Hnone & Hin).
    apply eq_None_not_Some. intros Hrun.
    destruct (generateScriptFrom_is_Some byId input) as [Hto _].
    destruct (Hto Hrun id md s Hid Hmd Hs) as [t Ht].
    assert (applyVars s (vars input) = None) as Hraise; [|congruence].
    apply applyVars_None. by exists k.
Qed.

Example generateScript_raises_on_constructor :
  generateScriptFrom
    (buildIndex [ {| id := "m"; name := "M"; requires := None;
                     script := {| on_mac := Some "echo {{constructor}}";
                                  on_ubuntu := None |} |} ])
    (select mac ["m"])
  = None.
Proof. by vm_compute. Qed.

Lemma shipped_registry_safe : forallb safeFragments MODULES = true.
Proof. by vm_compute. Qed.

Lemma generateScript_is_Some input : is_Some (generateScript input).
Proof. apply safe_registry_returns, shipped_registry_safe. Qed.

(** C6.  For the shipped registry, selecting [dev.git_config] returns a
    result whose included ids are [base.clt], [base.homebrew], [dev.git],
    [dev.git_config], in that order, for either OS and any variable map;
    the order follows the chain of requires. *)
Theorem git_config_resolution (o : OS) (v : gmap string string) :
  (exists res,
     generateScript {| os := o; selectedIds := ["dev.git_config"]; vars := v |}
     = Some res
     /\ includedIds res
        = ["base.clt"; "base.homebrew"; "dev.git"; "dev.git_config"])
  /\ (requiresOf <$> mapById !! "dev.git_config") = Some ["dev.git"]
  /\ (requiresOf <$> mapById !! "dev.git") = Some ["base.homebrew"]
  /\ (requiresOf <$> mapById !! "base.homebrew") = Some ["base.clt"]
  /\ (requiresOf <$> mapById !! "base.clt") = Some [].
Proof.
  split_and!; [|by vm_compute..].
  destruct (generateScript_is_Some
              {| os := o; selectedIds := ["dev.git_config"]; vars := v |})
    as [res Hres].
  exists res. split; [done|].
  rewrite (generateScriptFrom_includedIds _ _ _ Hres).
  change (uniqueKeepOrder (resolveWithDeps ["dev.git_config"] mapById)
          = ["base.clt"; "base.homebrew"; "dev.git"; "dev.git_config"]).
  by vm_compute.
Qed.

(** ** More about escaping *)

Lemma length_escapeEach v :
  String.length (escapeEach v) = String.length v + countSpecial v.
Proof.
  induction v as [|x v IH]; [done|].
  simpl escapeEach. rewrite length_append, IH, escapeChar_special. simpl.
  destruct (shellSpecial x); simpl; lia.
Qed.

Lemma escapeEach_no_special v : countSpecial v = 0 -> escapeEach v = v.
Proof.
  induction v as [|x v IH]; [done|]. simpl countSpecial. intros Hzero.
  simpl escapeEach. rewrite escapeChar_special.
  destruct (shellSpecial x); [done|].
  rewrite append_cons, append_nil_l, IH; [done|lia].
Qed.

(** X10.  Escaping adds exactly one character for each backslash, double
    quote, dollar sign and backtick of the value, and so returns the value
    unchanged exactly when it holds none of them. *)
Theorem escaping_length_and_fixpoints v :
  String.length (escapeForDoubleQuotes v) = String.length v + countSpecial v
  /\ (escapeForDoubleQuotes v = v <-> countSpecial v = 0).
Proof.
  rewrite escapeForDoubleQuotes_each. split; [apply length_escapeEach|]. split.
  - intros Heq. pose proof (length_escapeEach v) as Hlen.
    rewrite Heq in Hlen. lia.
  - apply escapeEach_no_special.
Qed.

(** X11.  Escaping loses nothing: two values have the same escaped form
    exactly when they are equal. *)
Theorem escaping_injective v w :
  escapeForDoubleQuotes v = escapeForDoubleQuotes w <-> v = w.
Proof.
  split; [|by intros ->].
  intros H. apply (f_equal shellReads) in H.
  rewrite !escapeForDoubleQuotes_each, !shellReads_escapeEach in H.
  by injection H.
Qed.

(** ** More about substitution *)

(** X12.  [applyVars] reads the variable map only through what the
    callback computes for the keys that the scan reads: two maps on which
    the callback agrees for these keys give the same outcome.  In
    particular a key that is neither an own entry of the map nor a name
    that [Object.prototype] defines may be bound to the empty string
    without any change. *)
Theorem applyVars_reads_defaults s vars :
  (forall vars',
     (forall k, k ∈ tokenKeys s -> substitute vars k = substitute vars' k) ->
     applyVars s vars = applyVars s vars')
  /\ (forall k,
        vars !! k = None -> k ∉ OBJECT_PROTOTYPE_KEYS ->
        applyVars s (<[k := EmptyString]> vars) = applyVars s vars).
Proof.
  split; [intros vars'; apply applyVars_ext|].
  intros k Hnone Hnot. apply applyVars_ext. intros k' _.
  apply substitute_insert_Undefined. by apply getProperty_Undefined.
Qed.

Lemma applyVars_reads_defaults_witness :
  applyVars "mail={{git_email}}" {[ "git_email" := EmptyString ]}
  = applyVars "mail={{git_email}}" ∅
  /\ applyVars "mail={{git_email}}" ∅ = Some "mail=".
Proof.
  split; [|by vm_compute].
  destruct (applyVars_reads_defaults "mail={{git_email}}" ∅) as [_ H].
  rewrite <- insert_empty. apply (H "git_email"); [reflexivity|].
  by apply not_inherited.
Defined.

(** X13.  A token alone between double quotes gives the shell exactly the
    raw value of its key (the empty string when the key is missing), for
    every key that is an own entry of the map or is not a name that
    [Object.prototype] defines: [applyVars] returns a text, and reading
    it as the body of a double-quoted literal returns the value. *)
Theorem token_value_round_trip k vars :
  isKey k = true ->
  (vars !! k = None -> k ∉ OBJECT_PROTOTYPE_KEYS) ->
  exists t,
    applyVars ("{{" +:+ k +:+ "}}") vars = Some t
    /\ shellReads t = Some (default EmptyString (vars !! k)).
Proof.
  intros Hk Hown.
  pose proof (applyVars_first_token EmptyString k EmptyString vars eq_refl Hk) as H.
  rewrite !append_nil_l in H.
  change ("}}" +:+ EmptyString) with "}}" in H.
  rewrite substitute_default, applyVars_nil in H by done. simpl in H.
  eexists. split; [exact H|].
  rewrite append_nil_l, append_nil_r, escapeForDoubleQuotes_each.
  apply shellReads_escapeEach.
Qed.

Lemma token_value_round_trip_witness :
  exists t,
    applyVars ("{{" +:+ "git_name" +:+ "}}")
      {[ "git_name" := "O'Brien " +:+ dq +:+ "$Dev`\" +:+ dq ]} = Some t
    /\ shellReads t
       = Some (default EmptyString
                 (({[ "git_name" := "O'Brien " +:+ dq +:+ "$Dev`\" +:+ dq ]}
                   : gmap string string) !! "git_name")).
Proof.
  apply (token_value_round_trip "git_name"); [reflexivity|].
  intros Hnone. by vm_compute in Hnone.
Defined.

(** X26.  [applyVars] raises exactly when the scan reads a key that is not
    an own entry of the map and that [Object.prototype] defines, such as
    [constructor], [toString] or [__proto__]: the value found is not a
    string, and escaping it fails. *)
Theorem applyVars_raises_on_inherited_key s vars :
  applyVars s vars = None
  <-> exists k, k ∈ tokenKeys s
                /\ vars !! k = None /\ k ∈ OBJECT_PROTOTYPE_KEYS.
Proof. apply applyVars_None. Qed.

Example applyVars_constructor :
  applyVars "echo {{constructor}}" ∅ = None
  /\ applyVars "echo {{toString}}" ∅ = None
  /\ applyVars "echo {{__proto__}}" ∅ = None
  /\ applyVars "echo {{constructor}}" {[ "constructor" := "x" ]} = Some "echo x".
Proof. split_and!; by vm_compute. Qed.

(** * Properties of the application *)

(** ** Default values of the inputs *)

Section InputDefaults.

Variable inputs : ModuleDef -> option (list App.InputDef).

Lemma setAdd_elem s k x : x ∈ App.setAdd s k <-> x ∈ s \/ x = k.
Proof.
  unfold App.setAdd. case_decide as Hk.
  - split; [auto|]. by intros [?| ->].
  - by rewrite elem_of_app, list_elem_of_singleton.
Qed.

Lemma neededKeys_elem selected k :
  k ∈ App.neededKeys inputs selected
  <-> exists m inp, m ∈ selected /\ inp ∈ default [] (inputs m) /\ App.key inp = k.
Proof.
  unfold App.neededKeys.
  assert (forall (l : list App.InputDef) s,
            k ∈ fold_left (fun s inp => App.setAdd s (App.key inp)) l s
            <-> k ∈ s \/ exists inp, inp ∈ l /\ App.key inp = k) as Hinner.
  { induction l as [|inp l IH]; intros s; simpl.
    - split; [auto|]. intros [?|(? & []%elem_of_nil & _)]; done.
    - rewrite IH, setAdd_elem. split.
      + intros [[?| ->]|(i & Hi & Hk)]; [auto| |].
        * right. exists inp. split; [by left|done].
        * right. exists i. split; [by right|done].
      + intros [?|(i & [->|Hi]%elem_of_cons & Hk)]; [auto|auto|].
        right. by exists i. }
  assert (forall sel s,
            k ∈ fold_left
                  (fun s m =>
                     fold_left (fun s inp => App.setAdd s (App.key inp))
                       (default [] (inputs m)) s) sel s
            <-> k ∈ s \/ exists m inp, m ∈ sel /\ inp ∈ default [] (inputs m)
                                       /\ App.key inp = k) as Houter.
  { induction sel as [|m sel IH]; intros s; simpl.
    - split; [auto|]. intros [?|(? & ? & []%elem_of_nil & _)]; done.
    - rewrite IH, Hinner. split.
      + intros [[?|(i & Hi & Hk)]|(m' & i & Hm' & Hi & Hk)]; [auto| |].
        * right. exists m, i. split_and!; [by left|done..].
        * right. exists m', i. split_and!; [by right|done..].
      + intros [?|(m' & i & [->|Hm']%elem_of_cons & Hi & Hk)]; [auto| |].
        * left. right. by exists i.
        * right. by exists m', i. }
  rewrite Houter. split; [|auto]. intros [[]%elem_of_nil|?]; done.
Qed.

Lemma fillDefaults_lookup (keys : list string) : forall (vars : gmap string string) k,
  fold_left
    (fun out x =>
       match getProperty out x with
       | Undefined => <[x := EmptyString]> out
       | _ => out
       end)
    keys vars !! k
  = match vars !! k with
    | Some v => Some v
    | None =>
        if decide (k ∈ keys /\ k ∉ OBJECT_PROTOTYPE_KEYS) then Some EmptyString
        else None
    end.
Proof.
  induction keys as [|x keys IH]; intros vars k; cbn [fold_left].
  - destruct (vars !! k); [done|]. rewrite decide_False; [done|].
    by intros [?%elem_of_nil _].
  - rewrite IH. destruct (getProperty vars x) as [vx| |] eqn:Hx.
    + destruct (vars !! k) as [v|] eqn:Hk; [done|].
      assert (k <> x).
      { intros ->. unfold getProperty in Hx. rewrite Hk in Hx.
        by case_bool_decide. }
      apply decide_ext. set_solver.
    + apply getProperty_Inherited in Hx as [Hnone Hin].
      destruct (vars !! k) as [v|] eqn:Hk; [done|].
      apply decide_ext. split; [set_solver|].
      intros [[->|?]%elem_of_cons ?]; done.
    + apply getProperty_Undefined in Hx as [Hnone Hnot].
      rewrite lookup_insert. destruct (decide (x = k)) as [->|Hne].
      * rewrite Hnone. rewrite decide_True; [done|]. split; [by left|done].
      * destruct (vars !! k) as [v|] eqn:Hk; [done|].
        apply decide_ext. set_solver.
Qed.

(** X14.  [buildVarsFromInputs] keeps every value of [vars], binds to the
    empty string each key that an input of a selected module declares,
    that [vars] does not bind and that [Object.prototype] does not define,
    and binds no other key. *)
Theorem buildVarsFromInputs_lookup selected vars k :
  App.buildVarsFromInputs inputs selected vars !! k
  = match vars !! k with
    | Some v => Some v
    | None =>
        if decide (k ∈ App.neededKeys inputs selected
                   /\ k ∉ OBJECT_PROTOTYPE_KEYS)
        then Some EmptyString
        else None
    end
  /\ (k ∈ App.neededKeys inputs selected
      <-> exists m inp, m ∈ selected /\ inp ∈ default [] (inputs m)
                        /\ App.key inp = k).
Proof.
  split; [apply fillDefaults_lookup|apply neededKeys_elem].
Qed.

(** The callback computes the same for the filled map as for [vars]. *)
Lemma buildVarsFromInputs_substitute selected vars k :
  substitute (App.buildVarsFromInputs inputs selected vars) k
  = substitute vars k.
Proof.
  unfold App.buildVarsFromInputs. revert vars.
  induction (App.neededKeys inputs selected) as [|x keys IH]; intros vars;
    simpl; [done|].
  rewrite IH. destruct (getProperty vars x) eqn:Hx; try done.
  by apply substitute_insert_Undefined.
Qed.

Lemma emitModule_vars_ext byId input input' id blocks :
  os input' = os input ->
  (forall k, substitute (vars input') k = substitute (vars input) k) ->
  emitModule byId input' id blocks = emitModule byId input id blocks.
Proof.
  intros Hos Hvars. unfold emitModule. rewrite Hos.
  destruct (byId !! id) as [md|]; [|done].
  destruct (scriptFor _ _) as [[|c s]|]; try done.
  by rewrite (applyVars_ext _ (vars input') (vars input)).
Qed.

Lemma generateScript_fill_defaults byId o ids selected vars :
  generateScriptFrom byId
    {| os := o; selectedIds := ids;
       vars := App.buildVarsFromInputs inputs selected vars |}
  = generateScriptFrom byId {| os := o; selectedIds := ids; vars := vars |}.
Proof.
  unfold generateScriptFrom, assembleBlocks, orderedIds. simpl.
  assert (forall l acc,
            forEach (emitModule byId
                       {| os := o; selectedIds := ids;
                          vars := App.buildVarsFromInputs inputs selected vars |})
              l acc
            = forEach (emitModule byId {| os := o; selectedIds := ids; vars := vars |})
                l acc) as ->; [|done].
  induction l as [|x xs IH]; intros acc; simpl; [done|].
  rewrite (emitModule_vars_ext byId {| os := o; selectedIds := ids; vars := vars |}).
  - destruct (emitModule _ _ x acc); [apply IH|done].
  - done.
  - intros k. simpl. apply buildVarsFromInputs_substitute.
Qed.

End InputDefaults.

(** X15.  Filling the defaults never changes what is generated: for every
    index, OS and selection, [generateScript] has the same outcome (the
    same script and the same ids, or an exception in both cases) with
    [buildVarsFromInputs selected vars] as with [vars], whatever modules
    [selected] holds; so the result shown by the application is the one
    of [generateScript] on the raw variables. *)
Theorem buildVarsFromInputs_same_script inputs byId o ids selected vars :
  generateScriptFrom byId
    {| os := o; selectedIds := ids;
       vars := App.buildVarsFromInputs inputs selected vars |}
  = generateScriptFrom byId {| os := o; selectedIds := ids; vars := vars |}
  /\ App.result o ids vars
     = generateScript {| os := o; selectedIds := ids; vars := vars |}.
Proof.
  split; [apply generateScript_fill_defaults|].
  unfold App.result, generateScript. apply generateScript_fill_defaults.
Qed.

(** ** The pipeline of selected ids *)


Lemma removeModule_absent (i : string) (prev : list string) :
  i ∉ prev -> App.removeModule i prev = prev.
Proof.
  unfold App.removeModule. intros Hnin.
  induction prev as [|y prev IH]; [done|].
  apply not_elem_of_cons in Hnin as [Hne Hnin].
  rewrite filter_cons_True by auto. by rewrite IH.
Qed.

Lemma occurrences_removeModule (i x : string) (prev : list string) :
  occurrences x (App.removeModule i prev)
  = if decide (x = i) then 0 else occurrences x prev.
Proof.
  unfold occurrences, App.removeModule.
  induction prev as [|y prev IH]; [by case_decide|].
  destruct (decide (y = i)) as [->|Hyi].
  - rewrite (filter_cons_False (fun z => z <> i)) by auto. rewrite IH.
    destruct (decide (x = i)) as [->|Hxi]; [done|].
    by rewrite (filter_cons_False (fun z => z = x)) by auto.
  - rewrite (filter_cons_True (fun z => z <> i)) by auto.
    destruct (decide (y = x)) as [->|Hyx].
    + rewrite !(filter_cons_True (fun z => z = x)) by auto. cbn [length].
      rewrite IH. by destruct (decide (x = i)).
    + rewrite !(filter_cons_False (fun z => z = x)) by auto. apply IH.
Qed.

(** X17.  Adding an id that is already selected changes nothing; otherwise
    the id goes to the end.  Removing an id removes every occurrence of it
    and nothing else: the other ids keep their order and their number of
    occurrences.  Removing undoes an addition. *)
Theorem addModule_removeModule (i : string) (prev : list string) :
  (i ∈ prev -> App.addModule i prev = prev)
  /\ (i ∉ prev -> App.addModule i prev = prev ++ [i])
  /\ (forall x, x ∈ App.addModule i prev <-> x = i \/ x ∈ prev)
  /\ App.addModule i (App.addModule i prev) = App.addModule i prev
  /\ (forall x, x ∈ App.removeModule i prev <-> x <> i /\ x ∈ prev)
  /\ App.removeModule i prev `sublist_of` prev
  /\ (forall x,
        occurrences x (App.removeModule i prev)
        = if decide (x = i) then 0 else occurrences x prev)
  /\ App.removeModule i (App.addModule i prev) = App.removeModule i prev
  /\ (i ∉ prev -> App.removeModule i (App.addModule i prev) = prev)
  /\ (App.removeModule i prev = prev <-> i ∉ prev).
Proof.
  split; [intros Hin; unfold App.addModule; by rewrite decide_True|].
  split; [intros Hnin; unfold App.addModule; by rewrite decide_False|].
  assert (App.removeModule i (App.addModule i prev) = App.removeModule i prev)
    as Hundo.
  { unfold App.addModule, App.removeModule.
    destruct (decide (i ∈ prev)); [done|].
    by rewrite filter_app, filter_cons_False, filter_nil, app_nil_r by auto. }
  split_and!; [| | |apply sublist_filter|intros x; apply occurrences_removeModule
             |exact Hundo| |];
    unfold App.addModule, App.removeModule.
  - intros x. destruct (decide (i ∈ prev)).
    + split; [auto|]. by intros [->|?].
    + rewrite elem_of_app, list_elem_of_singleton. tauto.
  - destruct (decide (i ∈ prev)) as [H|H]; [by rewrite decide_True|].
    rewrite decide_True; [done|]. apply elem_of_app. right. by left.
  - intros x. rewrite list_elem_of_filter. tauto.
  - intros Hnin. fold (App.addModule i prev). fold (App.removeModule i (App.addModule i prev)).
    rewrite Hundo. by apply removeModule_absent.
  - split.
    + intros Heq Hin. rewrite <- Heq in Hin.
      by apply list_elem_of_filter in Hin as [? _].
    + apply removeModule_absent.
Qed.

(** ** Moving an id in the pipeline *)

Lemma moveDown_last (prev : list string) j :
  App.moveDown (length prev - 1 + j) prev = prev.
Proof.
  unfold App.moveDown.
  by rewrite (proj2 (Nat.leb_le _ _)) by lia.
Qed.

Lemma moveDown_swap (l1 : list string) x y l2 :
  App.moveDown (length l1) (l1 ++ x :: y :: l2) = l1 ++ y :: x :: l2.
Proof.
  unfold App.moveDown.
  rewrite (proj2 (Nat.leb_gt _ _)) by (rewrite length_app; simpl; lia).
  rewrite list_lookup_middle by done.
  rewrite (lookup_app_r l1) by lia.
  replace (length l1 + 1 - length l1) with 1 by lia. simpl.
  rewrite (insert_app_r_alt l1 _ (length l1)) by lia.
  rewrite (insert_app_r_alt l1 _ (length l1 + 1)) by lia.
  replace (length l1 - length l1) with 0 by lia.
  replace (length l1 + 1 - length l1) with 1 by lia. done.
Qed.

Lemma neighbours_split (prev : list string) idx :
  idx + 1 < length prev ->
  exists l1 x y l2, prev = l1 ++ x :: y :: l2 /\ length l1 = idx.
Proof.
  intros Hlt. exists (take idx prev).
  pose proof (take_drop idx prev) as Hsplit.
  pose proof (length_drop prev idx) as Hlen.
  destruct (drop idx prev) as [|x [|y l2]] eqn:E; simpl in Hlen; try lia.
  exists x, y, l2. split; [done|]. rewrite length_take. lia.
Qed.

(** X18.  [moveDown] exchanges the id at [idx] with the next one and
    leaves the list alone when [idx] is the last position or beyond; it
    never drops, repeats or invents an id, and applying it twice restores
    the list. *)
Theorem moveDown_swaps_neighbours (idx : nat) (prev : list string) :
  (forall l1 x y l2,
     App.moveDown (length l1) (l1 ++ x :: y :: l2) = l1 ++ y :: x :: l2)
  /\ (forall j, App.moveDown (length prev - 1 + j) prev = prev)
  /\ App.moveDown idx prev ≡ₚ prev
  /\ App.moveDown idx (App.moveDown idx prev) = prev.
Proof.
  split_and!; [apply moveDown_swap|apply moveDown_last| |].
  - destruct (decide (idx + 1 < length prev)) as [Hlt|Hge].
    + destruct (neighbours_split prev idx Hlt) as (l1 & x & y & l2 & -> & <-).
      rewrite moveDown_swap. apply Permutation_app_head, perm_swap.
    + replace idx with (length prev - 1 + (idx - (length prev - 1))) by lia.
      by rewrite moveDown_last.
  - destruct (decide (idx + 1 < length prev)) as [Hlt|Hge].
    + destruct (neighbours_split prev idx Hlt) as (l1 & x & y & l2 & -> & <-).
      by rewrite !moveDown_swap.
    + replace idx with (length prev - 1 + (idx - (length prev - 1))) by lia.
      by rewrite !moveDown_last.
Qed.

(** X19.  [moveUp] at position 0 leaves the list alone; at a position
    [i + 1] of the list it gives what [moveDown] gives at [i]; at a
    position outside of the list it does not return a list of ids. *)
Theorem moveUp_is_moveDown_of_predecessor (i : nat) (prev : list string) :
  App.moveUp 0 prev = Some prev
  /\ App.moveUp (S i) prev
     = if decide (S i < length prev) then Some (App.moveDown i prev) else None.
Proof.
  split; [done|]. unfold App.moveUp.
  destruct (decide (S i < length prev)) as [Hlt|Hge].
  - destruct (neighbours_split prev i ltac:(lia)) as (l1 & x & y & l2 & -> & <-).
    rewrite moveDown_swap.
    rewrite list_lookup_middle by done.
    rewrite (lookup_app_r l1) by lia.
    replace (S (length l1) - length l1) with 1 by lia. simpl.
    rewrite (insert_app_r_alt l1 _ (length l1)) by lia.
    rewrite (insert_app_r_alt l1 _ (S (length l1))) by lia.
    replace (length l1 - length l1) with 0 by lia.
    replace (S (length l1) - length l1) with 1 by lia. done.
  - rewrite (lookup_ge_None_2 prev (S i)) by lia.
    by destruct (prev !! i).
Qed.

(** X20.  A pipeline without repeated id stays so under every update of
    the application: adding, removing, moving down and moving up. *)
Theorem pipeline_updates_keep_NoDup (i : string) (idx : nat) (prev : list string) :
  NoDup prev ->
  NoDup (App.addModule i prev)
  /\ NoDup (App.removeModule i prev)
  /\ NoDup (App.moveDown idx prev)
  /\ (forall l, App.moveUp idx prev = Some l -> NoDup l).
Proof.
  intros Hnd.
  assert (forall n, NoDup (App.moveDown n prev)) as Hdown.
  { intros n. destruct (decide (n + 1 < length prev)) as [Hlt|Hge].
    - destruct (neighbours_split prev n Hlt) as (l1 & x & y & l2 & -> & <-).
      rewrite moveDown_swap. revert Hnd.
      apply NoDup_Permutation_proper, Permutation_app_head, perm_swap.
    - replace n with (length prev - 1 + (n - (length prev - 1))) by lia.
      by rewrite moveDown_last. }
  split_and!.
  - unfold App.addModule. case_decide as Hin; [done|].
    apply NoDup_app. split_and!; [done| |apply NoDup_singleton].
    intros x Hx ->%list_elem_of_singleton. done.
  - by apply NoDup_filter.
  - apply Hdown.
  - intros l Hl. destruct idx as [|n]; [by injection Hl as <-|].
    unfold App.moveUp in Hl. fold (App.moveUp (S n) prev) in Hl.
    destruct (decide (S n < length prev)) as [Hlt|Hge].
    + destruct (neighbours_split prev n ltac:(lia)) as (l1 & x & y & l2 & Heq & Hlen).
      pose proof (Hdown n) as Hd. subst prev. rewrite <- Hlen, moveDown_swap in Hd.
      rewrite <- Hlen in Hl. unfold App.moveUp in Hl.
      rewrite list_lookup_middle in Hl by done.
      rewrite (lookup_app_r l1) in Hl by lia.
      replace (S (length l1) - length l1) with 1 in Hl by lia. simpl in Hl.
      injection Hl as <-.
      rewrite (insert_app_r_alt l1 _ (length l1)) by lia.
      rewrite (insert_app_r_alt l1 _ (S (length l1))) by lia.
      replace (length l1 - length l1) with 0 by lia.
      replace (S (length l1) - length l1) with 1 by lia. done.
    + unfold App.moveUp in Hl.
      rewrite (lookup_ge_None_2 prev (S n)) in Hl by lia.
      by destruct (prev !! n).
Qed.

Lemma pipeline_updates_keep_NoDup_witness :
  NoDup (App.addModule "dev.git" ["base.clt"; "dev.git"; "cli.jq"])
  /\ NoDup (App.removeModule "dev.git" ["base.clt"; "dev.git"; "cli.jq"])
  /\ NoDup (App.moveDown 1 ["base.clt"; "dev.git"; "cli.jq"])
  /\ (forall l, App.moveUp 1 ["base.clt"; "dev.git"; "cli.jq"] = Some l -> NoDup l).
Proof.
  apply (pipeline_updates_keep_NoDup "dev.git" 1 ["base.clt"; "dev.git"; "cli.jq"]).
  apply (@bool_decide_unpack _ (NoDup_dec _)). by vm_compute.
Defined.

(** * Properties of the checkbox builder *)

Module LegacyFacts.
Import LegacyApp.

Lemma pushItem_ext platform (sel sel' : gset string) lines item :
  (id item ∈ sel <-> id item ∈ sel') ->
  pushItem platform sel lines item = pushItem platform sel' lines item.
Proof.
  intros H. unfold pushItem.
  destruct (decide (id item ∈ sel)) as [Hin|Hnin].
  - by rewrite decide_True by (by apply H).
  - by rewrite decide_False by (by rewrite <- H).
Qed.

(** X21.  [buildScript] looks at the selection only through the ids of
    the items: two selections that hold the same item ids give the same
    script, so an id that is no item id is ignored. *)
Theorem buildScript_reads_item_ids items platform (sel sel' : gset string) :
  (forall it, it ∈ items -> id it ∈ sel <-> id it ∈ sel') ->
  buildScriptFrom items platform sel = buildScriptFrom items platform sel'.
Proof.
  intros H. unfold buildScriptFrom. f_equal.
  generalize (preamble platform).
  induction items as [|it items IH]; intros acc; simpl; [done|].
  rewrite (pushItem_ext _ sel sel') by (apply H; by left).
  apply IH. intros it' Hit'. apply H. by right.
Qed.

Lemma buildScript_reads_item_ids_witness :
  buildScript ubuntu {[ "git" ]} = buildScript ubuntu {[ "git"; "no-such-item" ]}.
Proof.
  apply (buildScript_reads_item_ids ITEMS ubuntu {[ "git" ]} {[ "git"; "no-such-item" ]}).
  intros it Hit.
  assert (id it <> "no-such-item").
  { revert it Hit. apply Forall_forall.
    repeat (apply Forall_cons; split; [discriminate|]). apply Forall_nil_2. }
  set_solver.
Defined.

(** X22.  An item that is not selected, or that has no command for the
    platform, contributes nothing: the script is the one built from the
    selected items that have commands, in the order of [ITEMS]. *)
Theorem buildScript_selected_items_with_commands items platform (sel : gset string) :
  buildScriptFrom items platform sel
  = buildScriptFrom
      (filter (fun it => id it ∈ sel /\ commands it platform <> []) items)
      platform sel.
Proof.
  unfold buildScriptFrom. f_equal. generalize (preamble platform).
  induction items as [|it items IH]; intros acc; [done|].
  destruct (decide (id it ∈ sel /\ commands it platform <> [])) as [Hkeep|Hdrop].
  - rewrite filter_cons_True by done. simpl. apply IH.
  - rewrite filter_cons_False by done. simpl. rewrite <- IH. f_equal.
    unfold pushItem. case_decide as Hin; [|done].
    destruct (commands it platform); [done|]. exfalso. apply Hdrop. done.
Qed.

(** X23.  [toggle] flips the membership of one id and of no other, and
    toggling the same id twice restores the selection. *)
Theorem toggle_flips_one_id (i : string) (s : gset string) :
  (forall x, x ∈ toggle i s <-> (x = i /\ i ∉ s) \/ (x <> i /\ x ∈ s))
  /\ toggle i (toggle i s) = s.
Proof.
  assert (forall t x, x ∈ toggle i t <-> (x = i /\ i ∉ t) \/ (x <> i /\ x ∈ t)) as H.
  { intros t x. unfold toggle. destruct (decide (i ∈ t)); [|set_solver].
    rewrite elem_of_difference, elem_of_singleton.
    destruct (decide (x = i)) as [->|]; tauto. }
  split; [apply H|].
  apply set_eq. intros x. rewrite H, !H.
  destruct (decide (x = i)) as [->|]; destruct (decide (i ∈ s)); tauto.
Qed.

End LegacyFacts.

(** ** The frame of the script *)

Lemma concat_cons_cons sep (x y : string) l :
  String.concat sep (x :: y :: l) = x +:+ sep +:+ String.concat sep (y :: l).
Proof. reflexivity. Qed.

Lemma concat_snoc sep (l : list string) x y :
  String.concat sep ((x :: l) ++ [y]) = String.concat sep (x :: l) +:+ sep +:+ y.
Proof.
  revert x. induction l as [|z l IH]; intros x; [done|].
  change ((x :: z :: l) ++ [y]) with (x :: ((z :: l) ++ [y])).
  change ((z :: l) ++ [y]) with (z :: (l ++ [y])) at 1.
  rewrite concat_cons_cons. change (z :: (l ++ [y])) with ((z :: l) ++ [y]).
  rewrite IH, concat_cons_cons. by rewrite !append_assoc.
Qed.

(** X24.  Whatever is selected, the script begins with the header (the
    interpreter line, [set -e] and the banner with the OS) followed by a
    line feed, and ends with the footer: the outcome of [generateScript]
    is fixed by the blocks of the resolved ids, which stand between the
    two, each followed by a line feed. *)
Theorem script_has_header_and_footer byId input :
  generateScriptFrom byId input
  = (fun blocks =>
       {| scriptText :=
            header (os input) +:+ nl
              +:+ match blocks with
                  | [] => EmptyString
                  | _ :: _ => String.concat nl blocks +:+ nl
                  end
              +:+ footer;
          includedIds := orderedIds byId input |})
      <$> blocksOf byId input (orderedIds byId input)
  /\ (forall res, generateScriptFrom byId input = Some res ->
        exists body,
          scriptText res = header (os input) +:+ nl +:+ body +:+ footer).
Proof.
  assert (generateScriptFrom byId input
          = (fun blocks =>
               {| scriptText :=
                    header (os input) +:+ nl
                      +:+ match blocks with
                          | [] => EmptyString
                          | _ :: _ => String.concat nl blocks +:+ nl
                          end
                      +:+ footer;
                  includedIds := orderedIds byId input |})
              <$> blocksOf byId input (orderedIds byId input)) as Heq.
  { unfold generateScriptFrom, assembleBlocks.
    rewrite forEach_emitModule.
    destruct (blocksOf byId input _) as [blocks|]; [|done].
    cbn [fmap option_fmap option_map]. do 2 f_equal.
    rewrite <- app_assoc. destruct blocks as [|b bs]; [reflexivity|].
    change ([header (os input)] ++ (b :: bs) ++ [footer])
      with (header (os input) :: ((b :: bs) ++ [footer])).
    change ((b :: bs) ++ [footer]) with (b :: (bs ++ [footer])) at 1.
    rewrite concat_cons_cons.
    change (b :: (bs ++ [footer])) with ((b :: bs) ++ [footer]).
    by rewrite concat_snoc, !append_assoc. }
  split; [exact Heq|].
  intros res Hres. rewrite Heq in Hres.
  destruct (blocksOf byId input _) as [blocks|]; [|done].
  injection Hres as <-. by eexists.
Qed.

(** ** Reordering the selection *)

(** X25.  The order of the selection decides the order of the result and
    nothing else: two selections with the same ids include the same
    modules, and with the same OS and variables [generateScript] returns
    for the one exactly when it returns for the other. *)
Theorem reordering_keeps_included_modules byId input input' :
  selectedIds input ≡ₚ selectedIds input' ->
  orderedIds byId input ≡ₚ orderedIds byId input'
  /\ (forall res res',
        generateScriptFrom byId input = Some res ->
        generateScriptFrom byId input' = Some res' ->
        includedIds res ≡ₚ includedIds res')
  /\ (os input = os input' -> vars input = vars input' ->
      (is_Some (generateScriptFrom byId input)
       <-> is_Some (generateScriptFrom byId input'))).
Proof.
  intros Hperm.
  assert (orderedIds byId input ≡ₚ orderedIds byId input') as Hsame.
  { rewrite !orderedIds_resolved.
    apply NoDup_Permutation; [apply resolveWithDeps_NoDup..|].
    intros x. rewrite !resolveWithDeps_elem.
    split; intros (Hk & s & Hs & Hpath); (split; [done|]); exists s;
      (split; [|done]); [by rewrite <- Hperm|by rewrite Hperm]. }
  split_and!; [done| |].
  - intros res res' Hres Hres'.
    by rewrite (generateScriptFrom_includedIds _ _ _ Hres),
      (generateScriptFrom_includedIds _ _ _ Hres').
  - intros Hos Hvars. rewrite !generateScriptFrom_is_Some.
    rewrite Hos, Hvars. by setoid_rewrite Hsame.
Qed.

Lemma reordering_keeps_included_modules_witness :
  orderedIds mapById (select mac ["cli.jq"; "dev.git"])
  ≡ₚ orderedIds mapById (select mac (App.moveDown 0 ["cli.jq"; "dev.git"]))
  /\ (forall res res',
        generateScriptFrom mapById (select mac ["cli.jq"; "dev.git"]) = Some res ->
        generateScriptFrom mapById
          (select mac (App.moveDown 0 ["cli.jq"; "dev.git"])) = Some res' ->
        includedIds res ≡ₚ includedIds res')
  /\ (mac = mac -> (∅ : gmap string string) = ∅ ->
      (is_Some (generateScriptFrom mapById (select mac ["cli.jq"; "dev.git"]))
       <-> is_Some (generateScriptFrom mapById
                      (select mac (App.moveDown 0 ["cli.jq"; "dev.git"]))))).
Proof.
  apply (reordering_keeps_included_modules mapById
           (select mac ["cli.jq"; "dev.git"])
           (select mac (App.moveDown 0 ["cli.jq"; "dev.git"]))).
  apply perm_swap.
Defined.
